(** * Saving Satoshi, chapter 8 ("Showtime"): chain validation and selection

    A shallow embedding of [Chapters/Chapter 8/showtime.js] and the
    properties of its four functions [getTxFee], [getSubsidy],
    [validateBlock] and [showtime].

    Conventions of the embedding.
    - A JavaScript Number holding an integer is a [Z]; all amounts and
      heights handled here are integers of the safe range, where Number
      arithmetic is exact.  [Math.floor (h / 210000)] is then [h / 210000]
      on [Z] (floor division).
    - [getSubsidy] mixes BigInt and Number, so its result carries the type
      tag ([jsnum]); [+] between the two kinds raises a TypeError and [===]
      between them is false, as in the language.
    - An exception is a value of [result]; the loops of [showtime] thread it
      through with the bind of that monad.  The [while] loop that walks the
      parent links runs on fuel, and [OutOfFuel] is a walk that the fuel did
      not let finish.
    - [tips] is a JavaScript object whose values are enumerated
      ([Object.values]): it is kept as an association list in property
      creation order.  [prevs] is only read by key: a [gmap].  [invalid] is
      an array: a list.
    - A block hash is a string that is neither the name of a member of
      [Object.prototype], so that a lookup in [tips] or [prevs] sees own
      properties only, nor an array index, so that [Object.values] follows
      the creation order.  Digests of 64 hexadecimal digits are such
      strings.
    - The node queried through [Bitcoin.rpc] is a parameter ([Node]). *)

From Stdlib Require Import ZArith Lia Permutation.
From Stdlib.Strings Require Ascii Byte.
From stdpp Require Import base option list strings gmap.

Local Open Scope string_scope.
Local Open Scope list_scope.
Local Open Scope Z_scope.

(** ** Values, exceptions *)

Inductive jsnum : Type :=
  | JNumber (z : Z)
  | JBigInt (z : Z).

(** The integer a numeric value denotes. *)
Definition numeric_value (v : jsnum) : Z :=
  match v with JNumber z => z | JBigInt z => z end.

Inductive js_error : Type :=
  | TypeError_mix_BigInt
  | TypeError_undefined_property
  | TypeError_reduce_empty
  | RpcFailure.

Inductive result (A : Type) : Type :=
  | Ok (a : A)
  | Raise (e : js_error)
  | OutOfFuel.
Arguments Ok {A} a.
Arguments Raise {A} e.
Arguments OutOfFuel {A}.

#[global] Instance result_ret : MRet result := fun A a => Ok a.
#[global] Instance result_bind : MBind result := fun A B f m =>
  match m with
  | Ok a => f a
  | Raise e => Raise e
  | OutOfFuel => OutOfFuel
  end.

#[global] Instance result_fmap : FMap result := fun A B f m =>
  match m with
  | Ok a => Ok (f a)
  | Raise e => Raise e
  | OutOfFuel => OutOfFuel
  end.

(** [a + b] on numeric values. *)
Definition js_add (a b : jsnum) : result jsnum :=
  match a, b with
  | JNumber x, JNumber y => Ok (JNumber (x + y))
  | JBigInt x, JBigInt y => Ok (JBigInt (x + y))
  | _, _ => Raise TypeError_mix_BigInt
  end.

(** [a === b] on numeric values. *)
Definition js_strict_eq (a b : jsnum) : bool :=
  match a, b with
  | JNumber x, JNumber y => x =? y
  | JBigInt x, JBigInt y => x =? y
  | _, _ => false
  end.

(** [a[i]["field"]]: reading a property of [a[i]] raises when [a[i]] is
    [undefined]. *)
Definition js_index {A} (a : list A) (i : nat) : result A :=
  match a !! i with
  | Some x => Ok x
  | None => Raise TypeError_undefined_property
  end.

(** Truthiness of a string. *)
Definition truthy (s : string) : bool :=
  match s with EmptyString => false | String _ _ => true end.

(** ** Blocks and transactions *)

Record TxIO : Type := { value : Z }.

Record Tx : Type := { inputs : list TxIO; outputs : list TxIO }.

Record Block : Type :=
  { hash : string; prev : string; height : Z; txs : list Tx }.

(** ** [getTxFee] *)

Definition getTxFee (tx : Tx) : Z :=
  let fee := 0 in
  let fee := fold_left (fun fee input => fee + value input) (inputs tx) fee in
  let fee := fold_left (fun fee output => fee - value output) (outputs tx) fee in
  fee.

(** ** [getSubsidy]

    [Number(subsidy)] is exact: for a height that is not negative the
    shifted amount is at most 5,000,000,000. *)

Definition getSubsidy (height : Z) : jsnum :=
  let halvings := height / 210000 in
  if 64 <=? halvings then JBigInt 0
  else
    let subsidy := 5000000000 in
    let subsidy := Z.shiftr subsidy halvings in
    JNumber subsidy.

(** ** [validateBlock] *)

Definition validateBlock (block : Block) : result bool :=
  let subsidy := getSubsidy (height block) in
  let fee := fold_left (fun fee tx => fee + getTxFee tx) (tail (txs block)) 0 in
  lhs ← js_add subsidy (JNumber fee);
  coinbase ← js_index (txs block) 0;
  out0 ← js_index (outputs coinbase) 0;
  Ok (js_strict_eq lhs (JNumber (value out0))).

(** ** Objects used as dictionaries, in property creation order *)

Section jsobj.
Context {A : Type}.

Fixpoint obj_get (o : list (string * A)) (k : string) : option A :=
  match o with
  | [] => None
  | (k', v) :: r => if decide (k' = k) then Some v else obj_get r k
  end.

(** [o[k] = v]: an existing property keeps its place. *)
Fixpoint obj_set (k : string) (v : A) (o : list (string * A))
  : list (string * A) :=
  match o with
  | [] => [(k, v)]
  | (k', v') :: r =>
      if decide (k' = k) then (k, v) :: r else (k', v') :: obj_set k v r
  end.

(** [delete o[k]]. *)
Fixpoint obj_delete (k : string) (o : list (string * A))
  : list (string * A) :=
  match o with
  | [] => []
  | (k', v') :: r =>
      if decide (k' = k) then obj_delete k r else (k', v') :: obj_delete k r
  end.

(** [Object.values(o)]. *)
Definition obj_values (o : list (string * A)) : list A := o.*2.
End jsobj.

(** [a.reduce(f)] without an initial value. *)
Definition js_reduce {A} (f : A → A → A) (a : list A) : result A :=
  match a with
  | [] => Raise TypeError_reduce_empty
  | x :: r => Ok (fold_left f r x)
  end.

(** ** [showtime] *)

Record Node : Type :=
  { getinfo_blocks : Z;
    getblocksbyheight : Z → list string;
    getblock : string → option Block }.

Definition rpc_getblock (node : Node) (bhash : string) : result Block :=
  match getblock node bhash with
  | Some b => Ok b
  | None => Raise RpcFailure
  end.

Record State : Type :=
  { tips : list (string * Block);
    prevs : gmap string string;
    invalid : list string }.

Definition init : State := {| tips := []; prevs := ∅; invalid := [] |}.

Definition reject (st : State) (bhash : string) : State :=
  {| tips := tips st; prevs := prevs st; invalid := invalid st ++ [bhash] |}.

Definition accept (st : State) (bhash : string) (block : Block) : State :=
  let tips1 :=
    if obj_get (tips st) (prev block) is Some _
    then obj_delete (prev block) (tips st)
    else tips st in
  {| tips := obj_set (hash block) block tips1;
     prevs := <[bhash := prev block]> (prevs st);
     invalid := invalid st |}.

(** The body of the [for ... of candidates] loop, from its [if] on.  The
    validator is an argument, so that one can tell whether the body
    consults it. *)
Definition process_candidate_with (validate : Block → result bool)
    (st : State) (bhash : string) (block : Block) : result State :=
  bad ← (if bool_decide (prev block ∈ invalid st) then Ok true
         else ok ← validate block; Ok (negb ok));
  if (bad : bool) then Ok (reject st bhash) else Ok (accept st bhash block).

Definition process_candidate : State → string → Block → result State :=
  process_candidate_with validateBlock.

(** One turn of the [for ... of candidates] loop. *)
Definition candidate_step (node : Node) (st : State) (bhash : string)
  : result State :=
  block ← rpc_getblock node bhash;
  process_candidate st bhash block.

Fixpoint scan_candidates (node : Node) (st : State) (candidates : list string)
  : result State :=
  match candidates with
  | [] => Ok st
  | bhash :: rest =>
      st' ← candidate_step node st bhash;
      scan_candidates node st' rest
  end.

Fixpoint scan_heights (node : Node) (st : State) (hs : list Z) : result State :=
  match hs with
  | [] => Ok st
  | height :: rest =>
      st' ← scan_candidates node st (getblocksbyheight node height);
      scan_heights node st' rest
  end.

(** The callback of the [reduce] that picks the best tip. *)
Definition higher (a b : Block) : Block :=
  if height a >? height b then a else b.

Definition select_best (tips : list (string * Block)) : result Block :=
  js_reduce higher (obj_values tips).

(** The [while (prevs[best_hash])] loop; [fuel] bounds its iterations. *)
Fixpoint walk (fuel : nat) (prevs : gmap string string) (best_hash : string)
    (valid : list string) : result (list string) :=
  match fuel with
  | O => OutOfFuel
  | S fuel =>
      match prevs !! best_hash with
      | Some p =>
          if truthy p then walk fuel prevs p (valid ++ [p]) else Ok valid
      | None => Ok valid
      end
  end.

Record Report : Type := { valid : list string; report_invalid : list string }.

(** Phases 2 and 3: the best tip, then the chain under it. *)
Definition finish (fuel : nat) (st : State) : result Report :=
  best ← select_best (tips st);
  let best_hash := hash best in
  valid ← walk fuel (prevs st) best_hash [best_hash];
  Ok {| valid := reverse valid; report_invalid := invalid st |}.

(** [showtime], its first height being a parameter. *)
Definition showtime_from (start : Z) (fuel : nat) (node : Node)
  : result Report :=
  let last := getinfo_blocks node in
  st ← scan_heights node init (seqZ start (last - start + 1));
  finish fuel st.

(** [showtime] starts at height 6929851. *)
Definition showtime : nat → Node → result Report := showtime_from 6929851.

(** ** Vocabulary of the statements *)

(** The subsidy era of a height. *)
Definition era (h : Z) : Z := h / 210000.

Definition sum_values (l : list TxIO) : Z :=
  foldr (fun io acc => value io + acc) 0 l.

(** Inputs minus outputs of one transaction. *)
Definition tx_fee (tx : Tx) : Z :=
  sum_values (inputs tx) - sum_values (outputs tx).

Definition total_fees (l : list Tx) : Z :=
  foldr (fun tx acc => tx_fee tx + acc) 0 l.

(** A block with a coinbase transaction that has a first output. *)
Definition well_formed (b : Block) : bool :=
  match txs b with
  | cb :: _ => if outputs cb is _ :: _ then true else false
  | [] => false
  end.

(** [b.txs[0].outputs[0].value] of a well-formed block. *)
Definition coinbase_value (b : Block) : Z :=
  match txs b with
  | cb :: _ => if outputs cb is o :: _ then value o else 0
  | [] => 0
  end.

(** Subsidy of the block's height plus the fees of [b.txs[1..]]. *)
Definition expected_reward (b : Block) : Z :=
  numeric_value (getSubsidy (height b)) + total_fees (tail (txs b)).

Definition pay (v : Z) : TxIO := {| value := v |}.

(** A coinbase transaction paying [v], followed by one transaction of
    fee 500. *)
Definition block_fee500 (h v : Z) : Block :=
  {| hash := "b"; prev := "a"; height := h;
     txs := [ {| inputs := []; outputs := [pay v] |};
              {| inputs := [pay 100000]; outputs := [pay 99000; pay 500] |} ] |}.

(** A block of the first height of era 64 with the coinbase transaction
    alone. *)
Definition block_era64 : Block :=
  {| hash := "b"; prev := "a"; height := 13440000;
     txs := [ {| inputs := []; outputs := [pay 0] |} ] |}.

(** The first entry, in enumeration order, of maximal height. *)
Definition first_maximal (l : list Block) : option Block :=
  List.find (fun b => forallb (fun y => height y <=? height b) l) l.

(** Two tips of the same height, ["a1"] created before ["b1"]. *)
Definition tipA : Block := {| hash := "a1"; prev := "00"; height := 5; txs := [] |}.
Definition tipB : Block := {| hash := "b1"; prev := "00"; height := 5; txs := [] |}.
Definition tie_tips : list (string * Block) := [("a1", tipA); ("b1", tipB)].

(** Two candidates in a row, [X] before [Y]. *)
Definition process_both (st : State) (X Y : Block) : result State :=
  st1 ← process_candidate st (hash X) X;
  process_candidate st1 (hash Y) Y.

(** The node answers [getblock h] with a block whose hash is [h]. *)
Definition consistent (node : Node) : Prop :=
  ∀ h b, getblock node h = Some b → hash b = h.

(** The tips after a fork of [A] into [B1] and [B2]. *)
Definition forked (st' : State) (A B1 B2 : Block) : Prop :=
  is_Some (obj_get (tips st') (hash B1))
  ∧ is_Some (obj_get (tips st') (hash B2))
  ∧ obj_get (tips st') (hash A) = None.

(** ** A sample node

    Heights [s] to [s + 3].  ["a4"] is the block of height [s] and names
    [p] as its parent.  ["t5"] and ["b5"] fork at [s + 1]; ["b5"] is
    continued by ["c6"] and ["t7"].  ["x5"] overpays its coinbase by one
    satoshi, and ["y6"] is a correct block built on it. *)

(** A block with a lone coinbase transaction paying the subsidy plus
    [extra]. *)
Definition sample_block (h : Z) (bhash bprev : string) (extra : Z) : Block :=
  {| hash := bhash; prev := bprev; height := h;
     txs := [ {| inputs := [];
                 outputs := [pay (numeric_value (getSubsidy h) + extra)] |} ] |}.

Definition sample_blocks (s : Z) (p : string) : list Block :=
  [ sample_block s "a4" p 0;
    sample_block (s + 1) "t5" "a4" 0;
    sample_block (s + 1) "b5" "a4" 0;
    sample_block (s + 1) "x5" "a4" 1;
    sample_block (s + 2) "c6" "b5" 0;
    sample_block (s + 2) "y6" "x5" 0;
    sample_block (s + 3) "t7" "c6" 0 ].

Definition sample_node (s : Z) (p : string) : Node :=
  {| getinfo_blocks := s + 3;
     getblocksbyheight := fun h =>
       hash <$> filter (fun b => height b = h) (sample_blocks s p);
     getblock := fun bhash =>
       head (filter (fun b => hash b = bhash) (sample_blocks s p)) |}.

(** A node whose only block, at height [s], overpays. *)
Definition overpaying_node (s : Z) : Node :=
  {| getinfo_blocks := s;
     getblocksbyheight := fun h => if decide (h = s) then ["x5"] else [];
     getblock := fun bhash =>
       if decide (bhash = "x5") then Some (sample_block s "x5" "a4" 1)
       else None |}.

Definition blkA : Block := sample_block 4 "a4" "p3" 0.
Definition blkT1 : Block := sample_block 5 "t5" "a4" 0.
Definition blkB : Block := sample_block 5 "b5" "a4" 0.
Definition blkX : Block := sample_block 5 "x5" "a4" 1.
Definition blkY : Block := sample_block 6 "y6" "x5" 0.
Definition blkC : Block := sample_block 6 "c6" "b5" 0.
Definition blkT2 : Block := sample_block 7 "t7" "c6" 0.

(** The state once ["a4"] has been accepted. *)
Definition st_a4 : State :=
  {| tips := [("a4", blkA)]; prevs := {["a4" := "p3"]}; invalid := [] |}.

(** The state at the end of the scan of the sample node from height 4,
    [p] being the parent that ["a4"] names. *)
Definition st_end (p : string) : State :=
  {| tips := [("t5", blkT1); ("t7", blkT2)];
     prevs := {[ "a4" := p; "t5" := "a4"; "b5" := "a4"; "c6" := "b5";
                 "t7" := "c6" ]};
     invalid := ["x5"; "y6"] |}.

(** The parent that the test of the [while] loop sees for [x]: the entry
    of [x], unless it is missing or the empty string. *)
Definition parent_seen (prevs : gmap string string) (x : string)
  : option string :=
  match prevs !! x with
  | Some p => if truthy p then Some p else None
  | None => None
  end.

(** [c] lists the hashes met from its first element down the parent
    links: each has the next as the parent the loop sees, and the last has
    none. *)
Fixpoint lineage (prevs : gmap string string) (c : list string) : Prop :=
  match c with
  | [] => False
  | x :: t =>
      match t with
      | [] => parent_seen prevs x = None
      | y :: _ => parent_seen prevs x = Some y ∧ lineage prevs t
      end
  end.

(** How often [h] occurs in [l]. *)
Definition occurrences (h : string) (l : list string) : nat :=
  length (filter (fun x => x = h) l).

(** ** Comparing states

    [tips] and [prevs] as mappings, [invalid] as a set. *)
Definition same_state (s1 s2 : State) : Prop :=
  (∀ k, obj_get (tips s1) k = obj_get (tips s2) k)
  ∧ prevs s1 = prevs s2
  ∧ (∀ x, x ∈ invalid s1 ↔ x ∈ invalid s2).

(** Two runs of the loop end alike: in such states, or both by an
    exception. *)
Definition same_outcome (r1 r2 : result State) : Prop :=
  match r1, r2 with
  | Ok s1, Ok s2 => same_state s1 s2
  | Raise _, Raise _ => True
  | OutOfFuel, OutOfFuel => True
  | _, _ => False
  end.

(** The test of the [if] of the loop body, negated: is the block accepted? *)
Definition verdict (inv : list string) (b : Block) : result bool :=
  if bool_decide (prev b ∈ inv) then Ok false else validateBlock b.

(** ** Further vocabulary: supply, cycles *)

(** The subsidies of the blocks of heights [0] to [n - 1] together. *)
Definition total_subsidy (n : Z) : Z :=
  foldr Z.add 0 ((fun h => numeric_value (getSubsidy h)) <$> seqZ 0 n).

(** The subsidies of the eras [0] to [e - 1] together, 210,000 blocks
    each. *)
Fixpoint era_total (e : nat) : Z :=
  match e with
  | O => 0
  | S k =>
      era_total k + 210000 * numeric_value (getSubsidy (Z.of_nat k * 210000))
  end.






(** The node lists [x] as a candidate of a height of the scanned range. *)
Definition scanned (node : Node) (start : Z) (x : string) : Prop :=
  ∃ h, start ≤ h ≤ getinfo_blocks node ∧ x ∈ getblocksbyheight node h.

(** [c] has been rejected, or accepted, at some point. *)
Definition classified (st : State) (c : string) : Prop :=
  c ∈ invalid st ∨ is_Some (prevs st !! c).

(** A node that knows of no block above height 3. *)
Definition short_node : Node :=
  {| getinfo_blocks := 3;
     getblocksbyheight := fun h => ["a4"];
     getblock := fun bhash => None |}.

(** ** Chapter 6: outpoints and inputs ([The-ins-and-outs.js])

    A [Buffer] is a list of bytes.  The calls of the [Buffer] interface
    that the file makes are embedded as that interface documents them:
    [alloc] fills with zeros, [copy] stops at the end of the target,
    [writeUInt8] and [writeUInt32LE] raise a RangeError on a value outside
    their range, and the ['hex'] decoding stops before the first pair that
    is not two hexadecimal digits.  Arguments have their documented types:
    an index, a sequence number and a value are integers. *)

Module Ch6.

Inductive error : Type :=
  | AssertionError
  | RangeError
  | TypeError_null.

Inductive outcome (A : Type) : Type :=
  | Done (a : A)
  | Throw (e : error).
Arguments Done {A} a.
Arguments Throw {A} e.

#[global] Instance outcome_ret : MRet outcome := fun A a => Done a.
#[global] Instance outcome_bind : MBind outcome := fun A B f m =>
  match m with
  | Done a => f a
  | Throw e => Throw e
  end.

(** The byte of value [z mod 256], and the value of a byte. *)
Definition byte_of_Z (z : Z) : Byte.byte :=
  default Byte.x00 (Byte.of_N (Z.to_N (z `mod` 256))).

Definition Z_of_byte (b : Byte.byte) : Z := Z.of_N (Byte.to_N b).

(** [n] bytes, least significant first. *)
Fixpoint le_bytes (n : nat) (v : Z) : list Byte.byte :=
  match n with
  | O => []
  | S k => byte_of_Z v :: le_bytes k (v / 256)
  end.

(** The number that bytes hold, least significant first. *)
Fixpoint le_value (bs : list Byte.byte) : Z :=
  match bs with
  | [] => 0
  | b :: r => Z_of_byte b + 256 * le_value r
  end.

(** [Buffer.alloc(n)]. *)
Definition alloc (n : nat) : list Byte.byte := replicate n Byte.x00.

(** [source.copy(target, 0)]: the target afterwards. *)
Definition copy_to (source target : list Byte.byte) : list Byte.byte :=
  take (length target) source ++ drop (length source) target.

(** [buf.writeUInt8(v, off)] for [n = 1], [buf.writeUInt32LE(v, off)] for
    [n = 4]: the buffer afterwards. *)
Definition write_le (n : nat) (v : Z) (off : nat) (buf : list Byte.byte)
  : outcome (list Byte.byte) :=
  if bool_decide (0 ≤ v < 256 ^ Z.of_nat n ∧ (off + n ≤ length buf)%nat)
  then Done (take off buf ++ le_bytes n v ++ drop (off + n) buf)
  else Throw RangeError.

(** The value of a hexadecimal digit. *)
Definition hex_digit (c : Ascii.ascii) : option Z :=
  let n := Z.of_N (Ascii.N_of_ascii c) in
  if bool_decide (48 ≤ n ≤ 57) then Some (n - 48)
  else if bool_decide (97 ≤ n ≤ 102) then Some (n - 87)
  else if bool_decide (65 ≤ n ≤ 70) then Some (n - 55)
  else None.

(** [Buffer.from(s, 'hex')]. *)
Fixpoint hex_decode (s : string) : list Byte.byte :=
  match s with
  | String a (String b r) =>
      match hex_digit a, hex_digit b with
      | Some x, Some y => byte_of_Z (16 * x + y) :: hex_decode r
      | _, _ => []
      end
  | _ => []
  end.

(** The characters [0] and [x]. *)
Definition char_0 : Ascii.ascii := Ascii.ascii_of_N 48.
Definition char_x : Ascii.ascii := Ascii.ascii_of_N 120.

(** [s.replace('0x', '')]: the first occurrence goes. *)
Fixpoint remove_0x (s : string) : string :=
  match s with
  | EmptyString => EmptyString
  | String c r =>
      match r with
      | String c' r' =>
          if (Ascii.eqb c char_0 && Ascii.eqb c' char_x)%bool then r'
          else String c (remove_0x r)
      | EmptyString => s
      end
  end.

Record Outpoint : Type := { txid : list Byte.byte; index : Z }.

(** [new Outpoint(txid, index)]. *)
Definition new_Outpoint (txid : list Byte.byte) (index : Z) : outcome Outpoint :=
  if bool_decide (length txid = 32%nat)
  then Done {| txid := txid; index := index |}
  else Throw AssertionError.

(** [Outpoint.prototype.serialize]. *)
Definition Outpoint_serialize (o : Outpoint) : outcome (list Byte.byte) :=
  let buf := alloc 36 in
  let buf := copy_to (txid o) buf in
  write_le 4 (index o) 32 buf.

Record Input : Type :=
  { outpoint : option Outpoint;
    script : list Byte.byte;
    sequence : Z;
    value : Z;
    scriptcode : list Byte.byte }.

(** [new Input()]; [None] is the [null] outpoint. *)
Definition new_Input : Input :=
  {| outpoint := None; script := []; sequence := 4294967295; value := 0;
     scriptcode := [] |}.

(** [Input.from_output]. *)
Definition from_output (txid : string) (vout : Z) (value : Z)
    (scriptcode : string) : outcome Input :=
  let self := new_Input in
  o ← new_Outpoint (reverse (hex_decode (remove_0x txid))) vout;
  Done {| outpoint := Some o;
          script := script self;
          sequence := sequence self;
          value := value;
          scriptcode := hex_decode (remove_0x scriptcode) |}.

(** [Input.prototype.serialize]. *)
Definition Input_serialize (i : Input) : outcome (list Byte.byte) :=
  let buf := alloc (32 + 4 + 1 + 4) in
  o ← (if outpoint i is Some o then Done o else Throw TypeError_null);
  ser ← Outpoint_serialize o;
  let buf := copy_to ser buf in
  buf ← write_le 1 (Z.of_nat (length (script i))) 36 buf;
  write_le 4 (sequence i) 37 buf.

(** The two hexadecimal digits of a byte, and the digits of a buffer. *)
Definition hex_char (d : Z) : Ascii.ascii :=
  Ascii.ascii_of_N (Z.to_N (if bool_decide (d < 10) then d + 48 else d + 87)).

Fixpoint hex_encode (bs : list Byte.byte) : string :=
  match bs with
  | [] => EmptyString
  | b :: r =>
      String (hex_char (Z_of_byte b / 16))
        (String (hex_char (Z_of_byte b `mod` 16)) (hex_encode r))
  end.

(** No character of [s] is an [x]. *)
Fixpoint no_x (s : string) : bool :=
  match s with
  | EmptyString => true
  | String c r => negb (Ascii.eqb c char_x) && no_x r
  end.

(** A transaction id of 32 bytes, [01 02 ... 20]. *)
Definition sample_txid : list Byte.byte :=
  byte_of_Z <$> seqZ 1 32.

End Ch6.

(** * Properties *)

(** ** The subsidy schedule *)

Lemma getSubsidy_unfold (h : Z) :
  0 ≤ h →
  getSubsidy h =
    if 64 <=? era h then JBigInt 0 else JNumber (5000000000 / 2 ^ era h).
Proof.
  intros Hh. unfold getSubsidy, era.
  destruct (64 <=? h / 210000); [done|].
  rewrite Z.shiftr_div_pow2; [done|]. apply Z.div_pos; lia.
Qed.

Lemma subsidy_value (h : Z) :
  0 ≤ h →
  numeric_value (getSubsidy h) =
    if 64 <=? era h then 0 else 5000000000 / 2 ^ era h.
Proof.
  intros Hh. rewrite getSubsidy_unfold by done.
  by destruct (64 <=? era h).
Qed.

Lemma era_nonneg (h : Z) : 0 ≤ h → 0 ≤ era h.
Proof. intros. apply Z.div_pos; lia. Qed.

Lemma era_mono (h h' : Z) : h ≤ h' → era h ≤ era h'.
Proof. intros. apply Z.div_le_mono; lia. Qed.

Lemma era_next (h : Z) : era (h + 210000) = era h + 1.
Proof.
  unfold era. replace (h + 210000) with (h + 1 * 210000) by lia.
  rewrite Z.div_add; lia.
Qed.

Lemma subsidy_value_nonneg (h : Z) : 0 ≤ h → 0 ≤ numeric_value (getSubsidy h).
Proof.
  intros Hh. rewrite subsidy_value by done.
  destruct (64 <=? era h); [lia|].
  apply Z.div_pos; [lia|]. apply Z.pow_pos_nonneg; [lia|by apply era_nonneg].
Qed.

Lemma subsidy_value_mono (h h' : Z) :
  0 ≤ h → h ≤ h' →
  numeric_value (getSubsidy h') ≤ numeric_value (getSubsidy h).
Proof.
  intros Hh Hle.
  pose proof (era_mono _ _ Hle) as He. pose proof (era_nonneg _ Hh) as H0.
  pose proof (subsidy_value_nonneg h Hh) as Hnn.
  rewrite (subsidy_value h') by lia.
  destruct (Z.leb_spec 64 (era h')) as [Hbig|Hsmall]; [done|].
  rewrite (subsidy_value h) by lia.
  destruct (Z.leb_spec 64 (era h)); [lia|].
  apply Z.div_le_compat_l; [lia|]. split.
  - apply Z.pow_pos_nonneg; lia.
  - apply Z.pow_le_mono_r; lia.
Qed.

Lemma subsidy_value_halves (h : Z) :
  0 ≤ h →
  numeric_value (getSubsidy (h + 210000)) = numeric_value (getSubsidy h) / 2.
Proof.
  intros Hh. pose proof (era_nonneg _ Hh) as H0.
  rewrite !subsidy_value, era_next by lia.
  destruct (Z.leb_spec 64 (era h + 1)) as [Hbig|Hsmall].
  - destruct (Z.leb_spec 64 (era h)); [done|].
    assert (era h = 63) as -> by lia. reflexivity.
  - destruct (Z.leb_spec 64 (era h)); [lia|].
    rewrite Z.pow_add_r, Z.pow_1_r by lia.
    rewrite Z.div_div; [done| |lia]. apply Z.pow_nonzero; lia.
Qed.

(** C2.  For a non-negative height [h] of era [h / 210000], the amount
    [getSubsidy h] is 0 from era 64 on and [5,000,000,000 / 2 ^ era]
    before; it takes the values listed at heights 0, 209999, 210000, 420000
    and 13440000, never increases with the height, and is halved by each
    step of 210,000 blocks. *)
Theorem getSubsidy_schedule (h : Z) (Hh : 0 ≤ h) :
  (64 ≤ h / 210000 → numeric_value (getSubsidy h) = 0) ∧
  (h / 210000 < 64 →
     numeric_value (getSubsidy h) = 5000000000 / 2 ^ (h / 210000)) ∧
  numeric_value (getSubsidy 0) = 5000000000 ∧
  numeric_value (getSubsidy 209999) = 5000000000 ∧
  numeric_value (getSubsidy 210000) = 2500000000 ∧
  numeric_value (getSubsidy 420000) = 1250000000 ∧
  numeric_value (getSubsidy 13440000) = 0 ∧
  (∀ h', h ≤ h' →
     numeric_value (getSubsidy h') ≤ numeric_value (getSubsidy h)) ∧
  numeric_value (getSubsidy (h + 210000)) = numeric_value (getSubsidy h) / 2.
Proof.
  pose proof (subsidy_value h Hh) as Hv. unfold era in Hv.
  repeat split; try reflexivity.
  - intros Hbig. rewrite Hv. by destruct (Z.leb_spec 64 (h / 210000)); [|lia].
  - intros Hsmall. rewrite Hv. by destruct (Z.leb_spec 64 (h / 210000)); [lia|].
  - intros h' Hle. by apply subsidy_value_mono.
  - by apply subsidy_value_halves.
Qed.

Lemma getSubsidy_schedule_witness :
  0 ≤ 630000 ∧
  numeric_value (getSubsidy 630000) = 625000000 ∧
  numeric_value (getSubsidy (630000 + 210000)) = 312500000.
Proof.
  split; [lia|].
  destruct (getSubsidy_schedule 630000 ltac:(lia))
    as (_ & Hsmall & _ & _ & _ & _ & _ & _ & Hhalf).
  split.
  - rewrite Hsmall; [reflexivity|]. reflexivity.
  - rewrite Hhalf, Hsmall; [reflexivity|]. reflexivity.
Defined.

(** ** Fees and the coinbase rule *)

Lemma fold_left_add_values (l : list TxIO) (a : Z) :
  fold_left (fun fee input => fee + value input) l a = a + sum_values l.
Proof.
  revert a. induction l as [|x l IH]; intros a; simpl; [lia|].
  rewrite IH. lia.
Qed.

Lemma fold_left_sub_values (l : list TxIO) (a : Z) :
  fold_left (fun fee output => fee - value output) l a = a - sum_values l.
Proof.
  revert a. induction l as [|x l IH]; intros a; simpl; [lia|].
  rewrite IH. lia.
Qed.

Lemma getTxFee_spec (tx : Tx) : getTxFee tx = tx_fee tx.
Proof.
  unfold getTxFee, tx_fee.
  rewrite fold_left_sub_values, fold_left_add_values. lia.
Qed.

Lemma fold_left_fees (l : list Tx) (a : Z) :
  fold_left (fun fee tx => fee + getTxFee tx) l a = a + total_fees l.
Proof.
  revert a. induction l as [|x l IH]; intros a; simpl; [lia|].
  rewrite IH, getTxFee_spec. lia.
Qed.

Example getTxFee_1000 :
  getTxFee {| inputs := [pay 60000; pay 40000]; outputs := [pay 99000] |} = 1000
  ∧ getTxFee {| inputs := [pay 100000]; outputs := [] |} = 100000.
Proof. split; reflexivity. Qed.

(** Before era 64 the validator returns the equality test of the rule. *)
Lemma validateBlock_before_era64 (b : Block) :
  well_formed b = true →
  era (height b) < 64 →
  validateBlock b = Ok (expected_reward b =? coinbase_value b).
Proof.
  unfold well_formed, coinbase_value, expected_reward, validateBlock, era.
  intros Hwf Hera.
  destruct (txs b) as [|cb rest]; [done|].
  destruct (outputs cb) as [|o os] eqn:Hout; [done|].
  rewrite fold_left_fees. unfold getSubsidy.
  destruct (Z.leb_spec 64 (height b / 210000)); [lia|].
  simpl. rewrite Hout. simpl. do 2 f_equal.
Qed.

(** From era 64 on, [subsidy + fee] adds a BigInt to a Number. *)
Lemma validateBlock_from_era64 (b : Block) :
  64 ≤ era (height b) →
  validateBlock b = Raise TypeError_mix_BigInt.
Proof.
  unfold validateBlock, getSubsidy, era. intros Hera.
  by destruct (Z.leb_spec 64 (height b / 210000)); [|lia].
Qed.

Lemma validateBlock_true_iff (b : Block) :
  well_formed b = true →
  era (height b) < 64 →
  validateBlock b = Ok true ↔ coinbase_value b = expected_reward b.
Proof.
  intros Hwf Hera. rewrite validateBlock_before_era64 by done.
  split.
  - intros [= H]. symmetry. by apply Z.eqb_eq.
  - intros H. f_equal. apply Z.eqb_eq. done.
Qed.

Example validateBlock_height0_fee500 :
  validateBlock (block_fee500 0 5000000500) = Ok true
  ∧ validateBlock (block_fee500 0 5000000501) = Ok false
  ∧ validateBlock (block_fee500 0 5000000499) = Ok false
  ∧ ∀ v, validateBlock (block_fee500 0 v) = Ok true ↔ v = 5000000500.
Proof.
  repeat split; try reflexivity.
  - rewrite validateBlock_true_iff by done.
    change (expected_reward (block_fee500 0 v)) with 5000000500. done.
  - intros ->. reflexivity.
Qed.

(** C1 (the input on which the code departs from the rule).  A well-formed
    block of height 13,440,000 whose coinbase output pays exactly the
    subsidy plus the fees of its other transaction: the rule asks for
    [true], while [validateBlock] raises, [getSubsidy] having returned the
    BigInt [0n] that [subsidy + fee] cannot add to a Number. *)
Theorem validateBlock_exact_reward_era64 :
  well_formed (block_fee500 13440000 500) = true
  ∧ coinbase_value (block_fee500 13440000 500)
    = expected_reward (block_fee500 13440000 500)
  ∧ validateBlock (block_fee500 13440000 500) = Raise TypeError_mix_BigInt.
Proof. repeat split. Qed.

(** C3 (the input on which the code departs from it).  On a well-formed
    block of height 13,440,000 [validateBlock] raises a TypeError: it
    returns neither [true] nor [false]. *)
Theorem validateBlock_era64_raises :
  well_formed block_era64 = true
  ∧ 0 ≤ height block_era64
  ∧ validateBlock block_era64 = Raise TypeError_mix_BigInt
  ∧ ∀ v : bool, validateBlock block_era64 ≠ Ok v.
Proof. repeat split; done. Qed.

(** Below era 64 the validator does return a boolean. *)
Lemma validateBlock_boolean_before_era64 (b : Block) :
  well_formed b = true → era (height b) < 64 →
  ∃ v : bool, validateBlock b = Ok v.
Proof. intros. rewrite validateBlock_before_era64 by done. eauto. Qed.

(** ** Objects *)

Section jsobj_facts.
Context {A : Type}.
Implicit Types (o : list (string * A)) (k : string) (v : A).

Lemma obj_get_set o k v k' :
  obj_get (obj_set k v o) k' = if decide (k = k') then Some v else obj_get o k'.
Proof.
  induction o as [|[k0 v0] o IH]; simpl.
  - by destruct (decide (k = k')).
  - destruct (decide (k0 = k)) as [->|Hne]; simpl.
    + by destruct (decide (k = k')).
    + destruct (decide (k0 = k')) as [->|Hne'].
      * by destruct (decide (k = k')).
      * done.
Qed.

Lemma obj_get_delete o k k' :
  obj_get (obj_delete k o) k' = if decide (k = k') then None else obj_get o k'.
Proof.
  induction o as [|[k0 v0] o IH]; simpl.
  - by destruct (decide (k = k')).
  - destruct (decide (k0 = k)) as [->|Hne]; simpl.
    + rewrite IH. by destruct (decide (k = k')).
    + rewrite IH. destruct (decide (k0 = k')) as [->|Hne'];
        by destruct (decide (k = k')).
Qed.

Lemma obj_delete_absent o k : obj_get o k = None → obj_delete k o = o.
Proof.
  induction o as [|[k0 v0] o IH]; simpl; [done|].
  destruct (decide (k0 = k)); [done|]. intros H. by rewrite IH.
Qed.
End jsobj_facts.

(** ** One candidate *)

Lemma tips_accept (st : State) (bhash : string) (b : Block) (k : string) :
  obj_get (tips (accept st bhash b)) k =
    if decide (hash b = k) then Some b
    else if decide (prev b = k) then None
    else obj_get (tips st) k.
Proof.
  unfold accept; simpl. rewrite obj_get_set.
  destruct (decide (hash b = k)); [done|].
  destruct (obj_get (tips st) (prev b)) eqn:Hp.
  - by rewrite obj_get_delete.
  - destruct (decide (prev b = k)) as [<-|]; done.
Qed.

Lemma process_candidate_with_unfold (validate : Block → result bool)
    (st : State) (bhash : string) (b : Block) :
  process_candidate_with validate st bhash b =
    if bool_decide (prev b ∈ invalid st) then Ok (reject st bhash)
    else match validate b with
         | Ok true => Ok (accept st bhash b)
         | Ok false => Ok (reject st bhash)
         | Raise e => Raise e
         | OutOfFuel => OutOfFuel
         end.
Proof.
  unfold process_candidate_with.
  destruct (bool_decide (prev b ∈ invalid st)); [done|].
  by destruct (validate b) as [[]| |].
Qed.

Lemma validateBlock_terminates (b : Block) : validateBlock b ≠ OutOfFuel.
Proof.
  unfold validateBlock, js_add, js_index.
  destruct (getSubsidy (height b)); simpl; [|done].
  destruct (txs b) as [|cb r]; simpl; [done|].
  by destruct (outputs cb).
Qed.

(** C10.  One candidate changes the state in one of two ways only.
    Rejected (its parent is in [invalid], or the validator says false):
    [tips] and [prevs] are the same and [invalid] has the candidate's hash
    appended.  Accepted: [invalid] is the same, [prevs] gains the entry of
    the candidate's hash and nothing else changes in it, [tips] holds the
    block under its hash, loses the entry of its parent, and keeps every
    other entry.  When the validator raises, no state is produced at all. *)
Theorem process_candidate_frame (st : State) (bhash : string) (b : Block) :
  match process_candidate st bhash b with
  | Ok st' =>
      ((prev b ∈ invalid st ∨ validateBlock b = Ok false)
       ∧ tips st' = tips st
       ∧ prevs st' = prevs st
       ∧ invalid st' = (invalid st ++ [bhash]))
      ∨
      ((prev b ∉ invalid st) ∧ validateBlock b = Ok true
       ∧ invalid st' = invalid st
       ∧ prevs st' !! bhash = Some (prev b)
       ∧ (∀ k, k ≠ bhash → prevs st' !! k = (prevs st !! k))
       ∧ obj_get (tips st') (hash b) = Some b
       ∧ (prev b ≠ hash b → obj_get (tips st') (prev b) = None)
       ∧ (∀ k, k ≠ hash b → k ≠ prev b →
            obj_get (tips st') k = obj_get (tips st) k))
  | Raise e => (prev b ∉ invalid st) ∧ validateBlock b = Raise e
  | OutOfFuel => False
  end.
Proof.
  unfold process_candidate. rewrite process_candidate_with_unfold.
  case_bool_decide as Hin.
  { left. split_and!; auto. }
  destruct (validateBlock b) as [[]|e|] eqn:Hv.
  - right. split_and!; auto.
    + apply lookup_insert_eq.
    + intros k Hk. simpl. by apply lookup_insert_ne.
    + rewrite tips_accept. by rewrite decide_True.
    + intros Hne. rewrite tips_accept.
      by rewrite decide_False, decide_True.
    + intros k Hk1 Hk2. rewrite tips_accept.
      by rewrite !decide_False.
  - left. split_and!; auto.
  - done.
  - by apply validateBlock_terminates in Hv.
Qed.

(** ** Sibling blocks *)

Lemma process_candidate_accept (st : State) (bhash : string) (b : Block) :
  prev b ∉ invalid st → validateBlock b = Ok true →
  process_candidate st bhash b = Ok (accept st bhash b).
Proof.
  intros Hin Hv. unfold process_candidate.
  rewrite process_candidate_with_unfold, Hv. by rewrite bool_decide_false.
Qed.

Lemma process_both_siblings (st : State) (A X Y : Block) :
  hash A ∉ invalid st →
  prev X = hash A → prev Y = hash A →
  hash X ≠ hash A → hash Y ≠ hash A →
  validateBlock X = Ok true → validateBlock Y = Ok true →
  ∃ st', process_both st X Y = Ok st' ∧ forked st' A X Y.
Proof.
  intros Hvalid HpX HpY HnX HnY HvX HvY. unfold process_both.
  rewrite (process_candidate_accept st) by (by rewrite ?HpX). simpl.
  rewrite process_candidate_accept by (by rewrite ?HpY).
  eexists; split; [done|]. unfold forked. rewrite !tips_accept.
  split_and!.
  - destruct (decide (hash Y = hash X)); [by eexists|].
    rewrite HpY, decide_False, decide_True by done. by eexists.
  - rewrite decide_True by done. by eexists.
  - by rewrite decide_False, HpY, decide_True.
Qed.

(** C5.  [A] is a tip that is not invalid; [B1] and [B2] name it as parent,
    are blocks other than [A], and both pass [validateBlock].  Processing
    [B1] then [B2], or [B2] then [B1], succeeds, and afterwards [tips] has
    an entry for the hash of [B1] and one for the hash of [B2], and none
    for the hash of [A]. *)
Theorem fork_coexistence (st : State) (A B1 B2 : Block)
    (HA : is_Some (obj_get (tips st) (hash A)))
    (Hvalid : hash A ∉ invalid st)
    (Hp1 : prev B1 = hash A) (Hp2 : prev B2 = hash A)
    (Hne1 : hash B1 ≠ hash A) (Hne2 : hash B2 ≠ hash A)
    (Hv1 : validateBlock B1 = Ok true) (Hv2 : validateBlock B2 = Ok true) :
  (∃ st', process_both st B1 B2 = Ok st' ∧ forked st' A B1 B2)
  ∧ (∃ st', process_both st B2 B1 = Ok st' ∧ forked st' A B1 B2).
Proof.
  split.
  - by apply process_both_siblings.
  - destruct (process_both_siblings st A B2 B1) as (st' & Hrun & H2 & H1 & HA');
      [done..|].
    exists st'. by repeat split.
Qed.

Example sample_run :
  showtime_from 4 10 (sample_node 4 "p3")
  = Ok {| valid := ["p3"; "a4"; "b5"; "c6"; "t7"];
          report_invalid := ["x5"; "y6"] |}.
Proof. vm_compute. reflexivity. Qed.

Example sample_run_showtime :
  showtime 10 (sample_node 6929851 "p3")
  = Ok {| valid := ["p3"; "a4"; "b5"; "c6"; "t7"];
          report_invalid := ["x5"; "y6"] |}.
Proof. vm_compute. reflexivity. Qed.

Lemma fork_coexistence_witness :
  (∃ st', process_both st_a4 blkT1 blkB = Ok st' ∧ forked st' blkA blkT1 blkB)
  ∧ (∃ st', process_both st_a4 blkB blkT1 = Ok st' ∧ forked st' blkA blkT1 blkB).
Proof.
  apply (fork_coexistence st_a4 blkA blkT1 blkB).
  - by eexists.
  - apply not_elem_of_nil.
  - reflexivity.
  - reflexivity.
  - discriminate.
  - discriminate.
  - reflexivity.
  - reflexivity.
Defined.

(** ** Choice of the best tip *)

Lemma fold_left_higher_split (r : list Block) (x : Block) :
  ∃ l1 l2, x :: r = l1 ++ fold_left higher r x :: l2
    ∧ Forall (fun y => height y ≤ height (fold_left higher r x)) l1
    ∧ Forall (fun y => height y < height (fold_left higher r x)) l2.
Proof.
  induction r as [|y r IH] using rev_ind.
  - exists [], []. by repeat split.
  - destruct IH as (l1 & l2 & Heq & H1 & H2).
    rewrite fold_left_app. simpl. set (m := fold_left higher r x) in *.
    unfold higher. destruct (Z.gtb_spec (height m) (height y)) as [Hgt|Hle].
    + exists l1, (l2 ++ [y]). split_and!.
      * by rewrite app_comm_cons, Heq, <- app_assoc.
      * done.
      * apply Forall_app. split; [done|]. by repeat constructor.
    + exists (l1 ++ m :: l2), []. split_and!.
      * by rewrite app_comm_cons, Heq.
      * apply Forall_app. split.
        -- eapply Forall_impl; [exact H1|]. simpl. lia.
        -- constructor; [done|]. eapply Forall_impl; [exact H2|]. simpl. lia.
      * constructor.
Qed.

Lemma select_best_split (tips : list (string * Block)) :
  tips ≠ [] →
  ∃ best l1 l2,
    select_best tips = Ok best
    ∧ obj_values tips = l1 ++ best :: l2
    ∧ Forall (fun y => height y ≤ height best) l1
    ∧ Forall (fun y => height y < height best) l2.
Proof.
  intros Hne. unfold select_best, obj_values.
  destruct tips as [|[k x] r]; [done|]. simpl.
  destruct (fold_left_higher_split (r.*2) x) as (l1 & l2 & Heq & H1 & H2).
  by exists (fold_left higher (r.*2) x), l1, l2.
Qed.

(** C6 as amended.  For non-empty [tips] the selection returns a tip, and
    it is the last one, in enumeration order, of maximal height: no tip
    before it is higher, and every tip after it is strictly lower. *)
Theorem select_best_last_maximal (tips : list (string * Block))
    (Hne : tips ≠ []) :
  ∃ best l1 l2,
    select_best tips = Ok best
    ∧ obj_values tips = l1 ++ best :: l2
    ∧ Forall (fun y => height y ≤ height best) l1
    ∧ Forall (fun y => height y < height best) l2.
Proof. by apply select_best_split. Qed.

Lemma select_best_last_maximal_witness :
  tie_tips ≠ [] ∧
  ∃ best l1 l2,
    select_best tie_tips = Ok best
    ∧ obj_values tie_tips = l1 ++ best :: l2
    ∧ Forall (fun y => height y ≤ height best) l1
    ∧ Forall (fun y => height y < height best) l2.
Proof.
  split; [discriminate|].
  apply (select_best_last_maximal tie_tips). discriminate.
Defined.

(** C6 as stated fails: of two tips of height 5 the selection returns the
    one created last, ["b1"], while the first maximal entry is ["a1"]. *)
Lemma select_best_not_first_maximal :
  select_best tie_tips = Ok tipB
  ∧ first_maximal (obj_values tie_tips) = Some tipA
  ∧ tipA ≠ tipB.
Proof. repeat split. discriminate. Qed.

(** ** No tip *)

(** C9.  When the scan ends with no tip, [showtime] raises the TypeError of
    [reduce] on an empty array; it returns no report. *)
Theorem showtime_no_tip_raises (start : Z) (fuel : nat) (node : Node)
    (st : State)
    (Hscan : scan_heights node init
               (seqZ start (getinfo_blocks node - start + 1)) = Ok st)
    (Hempty : tips st = []) :
  showtime_from start fuel node = Raise TypeError_reduce_empty
  ∧ ∀ r, showtime_from start fuel node ≠ Ok r.
Proof.
  assert (showtime_from start fuel node = Raise TypeError_reduce_empty) as H.
  { unfold showtime_from. rewrite Hscan. simpl.
    unfold finish, select_best. by rewrite Hempty. }
  split; [done|]. intros r. by rewrite H.
Qed.

Lemma showtime_no_tip_raises_witness :
  showtime_from 4 10 (overpaying_node 4) = Raise TypeError_reduce_empty
  ∧ ∀ r, showtime_from 4 10 (overpaying_node 4) ≠ Ok r.
Proof.
  apply (showtime_no_tip_raises 4 10 (overpaying_node 4)
           {| tips := []; prevs := ∅; invalid := ["x5"] |}).
  - vm_compute. reflexivity.
  - reflexivity.
Defined.

(** ** The scan *)

Lemma candidate_step_unfold (node : Node) (st : State) (bhash : string) :
  candidate_step node st bhash =
    match getblock node bhash with
    | None => Raise RpcFailure
    | Some b =>
        if bool_decide (prev b ∈ invalid st) then Ok (reject st bhash)
        else match validateBlock b with
             | Ok true => Ok (accept st bhash b)
             | Ok false => Ok (reject st bhash)
             | Raise e => Raise e
             | OutOfFuel => OutOfFuel
             end
    end.
Proof.
  unfold candidate_step, rpc_getblock.
  destruct (getblock node bhash) as [b|]; [|done]. simpl.
  apply process_candidate_with_unfold.
Qed.

(** What one turn of the loop can do. *)
Lemma candidate_step_Ok (node : Node) (st st' : State) (bhash : string) :
  candidate_step node st bhash = Ok st' →
  ∃ b, getblock node bhash = Some b
    ∧ ((st' = reject st bhash
        ∧ (prev b ∈ invalid st ∨ validateBlock b = Ok false))
       ∨ (st' = accept st bhash b
          ∧ (prev b ∉ invalid st) ∧ validateBlock b = Ok true)).
Proof.
  rewrite candidate_step_unfold.
  destruct (getblock node bhash) as [b|]; [|done].
  intros H. exists b. split; [done|].
  case_bool_decide as Hin.
  - left. by injection H as <-; auto.
  - destruct (validateBlock b) as [[]| |]; try done; injection H as <-; auto.
Qed.

(** The loop over the heights visits the candidates of all heights in a
    row. *)
Lemma scan_heights_flat (node : Node) (hs : list Z) (st : State) :
  scan_heights node st hs
  = scan_candidates node st (concat (getblocksbyheight node <$> hs)).
Proof.
  revert st. induction hs as [|h hs IH]; intros st; simpl; [done|].
  generalize (getblocksbyheight node h). intros l. revert st.
  induction l as [|c l IHl]; intros st; simpl; [apply IH|].
  destruct (candidate_step node st c); simpl; auto.
Qed.

(** [invalid] only grows. *)
Lemma scan_candidates_invalid_grows (node : Node) (l : list string)
    (st st' : State) :
  scan_candidates node st l = Ok st' →
  ∃ more, invalid st' = invalid st ++ more.
Proof.
  revert st. induction l as [|c l IH]; intros st; simpl.
  - intros [= <-]. exists []. by rewrite app_nil_r.
  - destruct (candidate_step node st c) as [s1| |] eqn:Hstep; try done.
    simpl. intros Hrest. apply IH in Hrest as [more Hmore].
    apply candidate_step_Ok in Hstep as (b & _ & [[-> _]|[-> _]]).
    + exists (c :: more). rewrite Hmore. simpl. by rewrite <- app_assoc.
    + by exists more.
Qed.

(** A rejected block's entries are never written again, provided the node
    is consistent. *)
Lemma scan_candidates_rejected_untouched (node : Node) (bhash : string)
    (b : Block) (l : list string) (st st' : State) :
  consistent node →
  getblock node bhash = Some b →
  bhash ∈ invalid st →
  prev b ∈ invalid st ∨ validateBlock b = Ok false →
  scan_candidates node st l = Ok st' →
  obj_get (tips st') bhash = obj_get (tips st) bhash
  ∧ prevs st' !! bhash = prevs st !! bhash.
Proof.
  intros Hcons Hget. revert st.
  induction l as [|c l IH]; intros st Hin Hbad; simpl.
  - by intros [= <-].
  - destruct (candidate_step node st c) as [s1| |] eqn:Hstep; try done.
    simpl. intros Hrest.
    apply candidate_step_Ok in Hstep
      as (bc & Hgetc & [[-> _]|[-> [Hpc Hvc]]]).
    + apply IH in Hrest; [done| |].
      * simpl. apply elem_of_app. by left.
      * destruct Hbad as [Hp|Hv]; [left|by right].
        simpl. apply elem_of_app. by left.
    + assert (c ≠ bhash) as Hne.
      { intros ->. rewrite Hget in Hgetc. injection Hgetc as <-.
        destruct Hbad as [Hp|Hv]; [done|congruence]. }
      apply IH in Hrest; [|done..].
      destruct Hrest as [-> ->]. split.
      * rewrite tips_accept, (Hcons _ _ Hgetc).
        rewrite decide_False by done.
        rewrite decide_False; [done|]. intros Heq. by rewrite Heq in Hpc.
      * simpl. by rewrite lookup_insert_ne.
Qed.

Lemma sample_node_consistent (s : Z) (p : string) :
  consistent (sample_node s p).
Proof.
  intros h b H. simpl in H. apply head_Some_elem_of in H.
  by apply list_elem_of_filter in H as [? _].
Qed.

(** C4.  On a consistent node, a candidate whose parent is in [invalid],
    or that [validateBlock] refuses, has its hash appended to [invalid]
    and leaves [tips] and [prevs] as they were; when its parent is in
    [invalid] this happens whatever the validator would do, which is not
    consulted.  Over any later turns of the loop that complete, at this
    height or a later one, every hash of [invalid] is still in it, the
    [tips] and [prevs] entries of the rejected hash stay what they were
    (none, for a block met for the first time), and a candidate naming a
    hash of [invalid] as parent is rejected, again without consulting the
    validator. *)
Theorem invalid_propagation (node : Node) (st : State) (bhash : string)
    (b : Block)
    (Hcons : consistent node)
    (Hget : getblock node bhash = Some b)
    (Hbad : prev b ∈ invalid st ∨ validateBlock b = Ok false) :
  ∃ st1,
    candidate_step node st bhash = Ok st1
    ∧ invalid st1 = invalid st ++ [bhash]
    ∧ tips st1 = tips st
    ∧ prevs st1 = prevs st
    ∧ (prev b ∈ invalid st →
         ∀ validate, process_candidate_with validate st bhash b = Ok st1)
    ∧ ∀ later st', scan_candidates node st1 later = Ok st' →
        (∀ x, x ∈ invalid st1 → x ∈ invalid st')
        ∧ obj_get (tips st') bhash = obj_get (tips st) bhash
        ∧ prevs st' !! bhash = prevs st !! bhash
        ∧ ∀ x c child validate,
            x ∈ invalid st1 → prev child = x →
            process_candidate_with validate st' c child = Ok (reject st' c).
Proof.
  exists (reject st bhash). split_and!; try done.
  - rewrite candidate_step_unfold, Hget.
    case_bool_decide as Hin; [done|].
    destruct Hbad as [Hp|Hv]; [done|]. by rewrite Hv.
  - intros Hp validate. rewrite process_candidate_with_unfold.
    by rewrite bool_decide_true.
  - intros later st' Hscan.
    assert (∀ x, x ∈ invalid (reject st bhash) → x ∈ invalid st') as Hmono.
    { intros x Hx.
      apply scan_candidates_invalid_grows in Hscan as [more ->].
      apply elem_of_app. by left. }
    split; [done|].
    destruct (scan_candidates_rejected_untouched
                node bhash b later (reject st bhash) st') as [Ht Hp]; try done.
    { simpl. apply elem_of_app. right. by apply list_elem_of_singleton. }
    { destruct Hbad as [Hp|Hv]; [left|by right].
      simpl. apply elem_of_app. by left. }
    split_and!; try done.
    intros x c child validate Hx Hprev.
    rewrite process_candidate_with_unfold.
    rewrite bool_decide_true; [done|]. rewrite Hprev. by apply Hmono.
Qed.

Lemma invalid_propagation_witness :
  consistent (sample_node 4 "p3")
  ∧ ∃ st1,
      candidate_step (sample_node 4 "p3") st_a4 "x5" = Ok st1
      ∧ invalid st1 = ["x5"]
      ∧ ∀ st', scan_candidates (sample_node 4 "p3") st1 ["c6"] = Ok st' →
          ∀ validate,
            process_candidate_with validate st' "y6" blkY
            = Ok (reject st' "y6").
Proof.
  split; [apply sample_node_consistent|].
  destruct (invalid_propagation (sample_node 4 "p3") st_a4 "x5" blkX)
    as (st1 & Hstep & Hinv & _ & _ & _ & Hlater).
  - apply sample_node_consistent.
  - reflexivity.
  - right. reflexivity.
  - exists st1. split_and!; try done.
    intros st' Hscan validate.
    destruct (Hlater _ _ Hscan) as (_ & _ & _ & Hchild).
    apply (Hchild "x5"); [|reflexivity].
    rewrite Hinv. by apply list_elem_of_singleton.
Defined.

(** ** Reconstruction of the chain *)

Lemma walk_unfold (fuel : nat) (prevs : gmap string string) (x : string)
    (acc : list string) :
  walk (S fuel) prevs x acc =
    match parent_seen prevs x with
    | Some p => walk fuel prevs p (acc ++ [p])
    | None => Ok acc
    end.
Proof.
  simpl. unfold parent_seen.
  destruct (prevs !! x) as [p|]; [|done]. by destruct (truthy p).
Qed.

Lemma parent_seen_Some (prevs : gmap string string) (x p : string) :
  parent_seen prevs x = Some p → prevs !! x = Some p.
Proof.
  unfold parent_seen. destruct (prevs !! x) as [q|]; [|done].
  destruct (truthy q); [|done]. congruence.
Qed.

Lemma walk_lineage (prevs : gmap string string) (c : list string) :
  ∀ (x : string) (acc : list string) (fuel : nat),
    lineage prevs (x :: c) → (length c < fuel)%nat →
    walk fuel prevs x acc = Ok (acc ++ c).
Proof.
  induction c as [|y t IH]; intros x acc fuel Hlin Hfuel;
    (destruct fuel as [|fuel]; [simpl in Hfuel; lia|]);
    rewrite walk_unfold.
  - simpl in Hlin. rewrite Hlin. by rewrite app_nil_r.
  - destruct Hlin as (Hx & Hrest). rewrite Hx.
    rewrite (IH y (acc ++ [y]) fuel Hrest) by (simpl in Hfuel; lia).
    by rewrite <- app_assoc.
Qed.

(** More fuel does not change the outcome of a walk that ended. *)
Lemma walk_fuel_mono (prevs : gmap string string) (fuel : nat) :
  ∀ (x : string) (acc v : list string) (fuel' : nat),
    walk fuel prevs x acc = Ok v → (fuel ≤ fuel')%nat →
    walk fuel' prevs x acc = Ok v.
Proof.
  induction fuel as [|fuel IH]; intros x acc v fuel' Hw Hle; [done|].
  destruct fuel' as [|fuel']; [lia|].
  rewrite walk_unfold in Hw |- *.
  destruct (parent_seen prevs x); [|done]. apply IH; [done|lia].
Qed.

Lemma lineage_suffix (prevs : gmap string string) (l1 l2 : list string)
    (x : string) :
  lineage prevs (l1 ++ x :: l2) → lineage prevs (x :: l2).
Proof.
  induction l1 as [|a l1 IH]; [done|].
  intros H. apply IH. simpl in H.
  destruct (l1 ++ x :: l2) as [|y t] eqn:E.
  - by destruct l1.
  - by destruct H as (_ & H).
Qed.

Lemma lineage_functional (prevs : gmap string string) (c1 : list string) :
  ∀ (x : string) (c2 : list string),
    lineage prevs (x :: c1) → lineage prevs (x :: c2) → c1 = c2.
Proof.
  induction c1 as [|y t IH]; intros x [|y' t'] H1 H2; simpl in H1, H2.
  - done.
  - destruct H2 as (H2 & _). congruence.
  - destruct H1 as (H1 & _). congruence.
  - destruct H1 as (H1 & Hr1), H2 as (H2 & Hr2).
    assert (y = y') as <- by congruence. f_equal. by eapply IH.
Qed.

(** A lineage never meets a hash twice: the loop would not leave it. *)
Lemma lineage_NoDup (prevs : gmap string string) (c : list string) :
  lineage prevs c → NoDup c.
Proof.
  induction c as [|x t IH]; [done|]. intros H.
  destruct t as [|y t'].
  { apply NoDup_singleton. }
  pose proof H as (_ & Hrest). constructor; [|by apply IH].
  intros Hin. apply list_elem_of_split in Hin as (l1 & l2 & Heq).
  assert (lineage prevs (x :: l2)) as Hsuf.
  { apply (lineage_suffix prevs l1). by rewrite <- Heq. }
  pose proof (lineage_functional _ _ _ _ Hsuf H) as ->.
  apply (f_equal length) in Heq. rewrite length_app in Heq. simpl in Heq. lia.
Qed.

Lemma lineage_links (prevs : gmap string string) (c : list string) :
  lineage prevs c →
  ∀ (j : nat) (y x : string),
    c !! j = Some y → c !! S j = Some x → prevs !! y = Some x.
Proof.
  induction c as [|a t IH]; [done|]. intros H j y x Hy Hx.
  destruct t as [|b t']; [done|]. destruct H as (Ha & Hrest).
  destruct j as [|j].
  - simpl in Hy, Hx. apply parent_seen_Some. congruence.
  - by apply (IH Hrest j).
Qed.

Lemma occurrences_absent (h : string) (l : list string) :
  h ∉ l → occurrences h l = 0%nat.
Proof.
  unfold occurrences. induction l as [|a l IH]; [done|].
  intros Hnin. apply not_elem_of_cons in Hnin as [Hne Hnin].
  rewrite filter_cons_False by congruence. by apply IH.
Qed.

Lemma occurrences_app (h : string) (l1 l2 : list string) :
  occurrences h (l1 ++ l2) = (occurrences h l1 + occurrences h l2)%nat.
Proof. unfold occurrences. by rewrite filter_app, length_app. Qed.

(** The report when [best] is selected and [c] is what the loop meets
    under it. *)
Lemma finish_lineage (fuel : nat) (st : State) (best : Block)
    (c : list string) :
  select_best (tips st) = Ok best →
  lineage (prevs st) (hash best :: c) →
  (length c < fuel)%nat →
  finish fuel st
  = Ok {| valid := reverse c ++ [hash best]; report_invalid := invalid st |}
  ∧ last (reverse c ++ [hash best]) = Some (hash best)
  ∧ occurrences (hash best) (reverse c ++ [hash best]) = 1%nat
  ∧ ∀ (i : nat) (x y : string),
      (reverse c ++ [hash best]) !! i = Some x →
      (reverse c ++ [hash best]) !! S i = Some y →
      prevs st !! y = Some x.
Proof.
  intros Hbest Hlin Hfuel.
  set (L := hash best :: c) in *.
  assert (reverse c ++ [hash best] = reverse L) as ->
    by (unfold L; by rewrite reverse_cons).
  split_and!.
  - unfold finish. rewrite Hbest. simpl.
    by rewrite (walk_lineage _ c).
  - unfold L. rewrite reverse_cons. apply last_snoc.
  - apply lineage_NoDup in Hlin. unfold L in *.
    apply NoDup_cons in Hlin as [Hnin _].
    rewrite reverse_cons, occurrences_app, occurrences_absent.
    + unfold occurrences. by rewrite filter_cons_True.
    + intros Hin. apply Hnin. by apply elem_of_reverse.
  - intros i x y Hx Hy.
    assert (S i < length L)%nat as Hi.
    { apply lookup_lt_Some in Hy. by rewrite length_reverse in Hy. }
    rewrite reverse_lookup in Hx, Hy by lia.
    apply (lineage_links _ _ Hlin (length L - S (S i))); [done|].
    by replace (S (length L - S (S i))) with (length L - S i)%nat by lia.
Qed.

Lemma select_best_highest (ts : list (string * Block)) (T : Block)
    (k : string) :
  (k, T) ∈ ts →
  (∀ k' b, (k', b) ∈ ts → b = T ∨ height b < height T) →
  select_best ts = Ok T.
Proof.
  intros HT Hmax.
  destruct (select_best_split ts) as (best & l1 & l2 & -> & Hv & H1 & H2).
  { intros ->. by apply elem_of_nil in HT. }
  f_equal.
  assert (best ∈ obj_values ts) as Hbest.
  { rewrite Hv. apply elem_of_app. right. by left. }
  apply list_elem_of_fmap in Hbest as ([k' b] & -> & Hb). simpl.
  destruct (Hmax k' b Hb) as [->|Hlt]; [done|].
  assert (T ∈ obj_values ts) as HTv.
  { apply list_elem_of_fmap. by exists (k, T). }
  rewrite Hv in HTv. simpl in H1, H2.
  apply elem_of_app in HTv as [Hin|Hin].
  - rewrite Forall_forall in H1. apply H1 in Hin. lia.
  - apply elem_of_cons in Hin as [->|Hin]; [done|].
    rewrite Forall_forall in H2. apply H2 in Hin. lia.
Qed.

(** C7.  [tips] holds [T1] of height 5 and [T2] of height 7, and no tip
    other than [T2] is as high as [T2].  Under [T2], [prevs] links one
    block per height down to the block of the start height, [chain] being
    their hashes, and the loop sees no parent for that last block (it has
    no entry, or an empty one).  Given fuel for these links, [valid] is the
    lineage of [T2], oldest first: its length is [T2.height - start + 1],
    its last element is the hash of [T2], which occurs once, and each
    element is the [prevs] entry of the next. *)
Theorem reconstruct_lineage (fuel : nat) (st : State) (T1 T2 : Block)
    (start : Z) (chain : list string)
    (HT1 : (hash T1, T1) ∈ tips st) (HT2 : (hash T2, T2) ∈ tips st)
    (H1 : height T1 = 5) (H2 : height T2 = 7)
    (Hmax : ∀ k b, (k, b) ∈ tips st → b = T2 ∨ height b < height T2)
    (Hchain : lineage (prevs st) (hash T2 :: chain))
    (Hlen : Z.of_nat (length chain) = height T2 - start)
    (Hfuel : (length chain < fuel)%nat) :
  ∃ v,
    finish fuel st = Ok {| valid := v; report_invalid := invalid st |}
    ∧ v = reverse chain ++ [hash T2]
    ∧ Z.of_nat (length v) = height T2 - start + 1
    ∧ last v = Some (hash T2)
    ∧ occurrences (hash T2) v = 1%nat
    ∧ ∀ (i : nat) (x y : string),
        v !! i = Some x → v !! S i = Some y → prevs st !! y = Some x.
Proof.
  pose proof (select_best_highest (tips st) T2 (hash T2) HT2 Hmax) as Hbest.
  destruct (finish_lineage fuel st T2 chain Hbest Hchain Hfuel)
    as (Hfin & Hlast & Hocc & Hlinks).
  exists (reverse chain ++ [hash T2]). split_and!; try done.
  rewrite length_app, length_reverse. simpl. lia.
Qed.

Lemma reconstruct_lineage_witness :
  scan_heights (sample_node 4 "") init (seqZ 4 (7 - 4 + 1)) = Ok (st_end "")
  ∧ ∃ v,
      finish 10 (st_end "")
      = Ok {| valid := v; report_invalid := invalid (st_end "") |}
      ∧ v = reverse ["c6"; "b5"; "a4"] ++ [hash blkT2]
      ∧ Z.of_nat (length v) = height blkT2 - 4 + 1
      ∧ last v = Some (hash blkT2)
      ∧ occurrences (hash blkT2) v = 1%nat
      ∧ ∀ (i : nat) (x y : string),
          v !! i = Some x → v !! S i = Some y →
          prevs (st_end "") !! y = Some x.
Proof.
  split; [vm_compute; reflexivity|].
  apply (reconstruct_lineage 10 (st_end "") blkT1 blkT2 4 ["c6"; "b5"; "a4"]).
  - left.
  - right. left.
  - reflexivity.
  - reflexivity.
  - intros k b Hin.
    apply elem_of_cons in Hin as [[= -> ->]|Hin]; [right; reflexivity|].
    apply list_elem_of_singleton in Hin as [= -> ->]. by left.
  - simpl. repeat split; vm_compute; reflexivity.
  - reflexivity.
  - simpl. lia.
Defined.

(** When the block of the start height names a parent, that parent is what
    the loop meets last, and [valid] begins with it. *)
Example valid_begins_with_parent_of_start :
  scan_heights (sample_node 4 "p3") init (seqZ 4 (7 - 4 + 1))
  = Ok (st_end "p3")
  ∧ lineage (prevs (st_end "p3")) ["t7"; "c6"; "b5"; "a4"; "p3"]
  ∧ finish 10 (st_end "p3")
    = Ok {| valid := ["p3"; "a4"; "b5"; "c6"; "t7"];
            report_invalid := ["x5"; "y6"] |}.
Proof. split_and!; try (vm_compute; reflexivity); done. Qed.

(** Every tip has its parent recorded. *)
Lemma scan_candidates_tips_recorded (node : Node) (l : list string) :
  consistent node →
  ∀ st st',
    (∀ k b, obj_get (tips st) k = Some b → prevs st !! k = Some (prev b)) →
    scan_candidates node st l = Ok st' →
    ∀ k b, obj_get (tips st') k = Some b → prevs st' !! k = Some (prev b).
Proof.
  intros Hcons. induction l as [|c l IH]; intros st st' Hinv; simpl.
  - by intros [= <-].
  - destruct (candidate_step node st c) as [s1| |] eqn:Hstep; try done.
    simpl. apply IH.
    apply candidate_step_Ok in Hstep as (bc & Hget & [[-> _]|[-> _]]).
    + done.
    + intros k b. rewrite tips_accept, (Hcons _ _ Hget). simpl.
      destruct (decide (c = k)) as [->|Hne].
      * intros [= <-]. apply lookup_insert_eq.
      * rewrite lookup_insert_ne by done.
        destruct (decide (prev bc = k)); [done|]. apply Hinv.
Qed.

(** ** Order of the candidates of one height *)

Lemma same_state_refl (s : State) : same_state s s.
Proof. by repeat split. Qed.

Lemma same_state_trans (s1 s2 s3 : State) :
  same_state s1 s2 → same_state s2 s3 → same_state s1 s3.
Proof.
  intros (Ht1 & Hp1 & Hi1) (Ht2 & Hp2 & Hi2). split_and!.
  - intros k. by rewrite Ht1.
  - congruence.
  - intros x. by rewrite Hi1.
Qed.

Lemma same_outcome_refl (r : result State) : same_outcome r r.
Proof. destruct r; simpl; auto using same_state_refl. Qed.

Lemma same_outcome_trans (r1 r2 r3 : result State) :
  same_outcome r1 r2 → same_outcome r2 r3 → same_outcome r1 r3.
Proof.
  destruct r1, r2, r3; simpl; try done. apply same_state_trans.
Qed.

Lemma verdict_terminates (inv : list string) (b : Block) :
  verdict inv b ≠ OutOfFuel.
Proof.
  unfold verdict. case_bool_decide; [done|]. apply validateBlock_terminates.
Qed.

Lemma verdict_ext (inv inv' : list string) (b : Block) :
  (prev b ∈ inv ↔ prev b ∈ inv') → verdict inv b = verdict inv' b.
Proof.
  intros H. unfold verdict. by rewrite (bool_decide_ext _ _ H).
Qed.

Lemma verdict_snoc (inv : list string) (c : string) (b : Block) :
  prev b ≠ c → verdict (inv ++ [c]) b = verdict inv b.
Proof.
  intros Hne. apply verdict_ext.
  rewrite elem_of_app, list_elem_of_singleton. tauto.
Qed.

Lemma candidate_step_verdict (node : Node) (st : State) (c : string)
    (b : Block) :
  getblock node c = Some b →
  candidate_step node st c =
    match verdict (invalid st) b with
    | Ok true => Ok (accept st c b)
    | Ok false => Ok (reject st c)
    | Raise e => Raise e
    | OutOfFuel => OutOfFuel
    end.
Proof.
  intros Hget. rewrite candidate_step_unfold, Hget. unfold verdict.
  by case_bool_decide.
Qed.

Lemma candidate_step_missing (node : Node) (st : State) (c : string) :
  getblock node c = None → candidate_step node st c = Raise RpcFailure.
Proof. intros Hget. by rewrite candidate_step_unfold, Hget. Qed.

Lemma candidate_step_proper (node : Node) (s1 s2 : State) (c : string) :
  same_state s1 s2 →
  same_outcome (candidate_step node s1 c) (candidate_step node s2 c).
Proof.
  intros (Ht & Hp & Hi).
  destruct (getblock node c) as [b|] eqn:Hget.
  - rewrite !(candidate_step_verdict _ _ _ _ Hget).
    rewrite (verdict_ext _ _ b (Hi (prev b))).
    destruct (verdict (invalid s2) b) as [[]| |]; simpl; try done.
    + split_and!.
      * intros k. by rewrite !tips_accept, Ht.
      * simpl. by rewrite Hp.
      * done.
    + split_and!; [done..|].
      intros x. simpl. rewrite !elem_of_app. by rewrite Hi.
  - by rewrite !candidate_step_missing.
Qed.

Lemma scan_candidates_proper (node : Node) (l : list string) :
  ∀ s1 s2, same_state s1 s2 →
    same_outcome (scan_candidates node s1 l) (scan_candidates node s2 l).
Proof.
  induction l as [|c l IH]; intros s1 s2 Hs; simpl; [done|].
  pose proof (candidate_step_proper node s1 s2 c Hs) as Hstep.
  destruct (candidate_step node s1 c), (candidate_step node s2 c);
    simpl in *; try done.
  by apply IH.
Qed.

Lemma candidate_step_terminates (node : Node) (st : State) (c : string) :
  candidate_step node st c ≠ OutOfFuel.
Proof.
  destruct (getblock node c) as [b|] eqn:Hget.
  - rewrite (candidate_step_verdict _ _ _ _ Hget).
    pose proof (verdict_terminates (invalid st) b).
    by destruct (verdict (invalid st) b) as [[]| |].
  - by rewrite candidate_step_missing.
Qed.

Lemma result_bind_Ok {A B : Type} (a : A) (f : A → result B) :
  Ok a ≫= f = f a.
Proof. reflexivity. Qed.

Lemma result_bind_Raise {A B : Type} (e : js_error) (f : A → result B) :
  Raise e ≫= f = Raise e.
Proof. reflexivity. Qed.

(** Two candidates, neither the parent of the other, can be taken in
    either order. *)
Lemma candidate_step_swap (node : Node) (s : State) (c1 c2 : string) :
  c1 ≠ c2 →
  (∀ b, getblock node c1 = Some b → hash b = c1 ∧ prev b ≠ c2) →
  (∀ b, getblock node c2 = Some b → hash b = c2 ∧ prev b ≠ c1) →
  same_outcome
    (candidate_step node s c1 ≫= fun s' => candidate_step node s' c2)
    (candidate_step node s c2 ≫= fun s' => candidate_step node s' c1).
Proof.
  intros Hne H1 H2.
  destruct (getblock node c1) as [b1|] eqn:G1;
    destruct (getblock node c2) as [b2|] eqn:G2.
  - destruct (H1 b1 eq_refl) as [Hh1 Hp1], (H2 b2 eq_refl) as [Hh2 Hp2].
    rewrite (candidate_step_verdict _ s c1 b1 G1),
      (candidate_step_verdict _ s c2 b2 G2).
    destruct (verdict (invalid s) b1) as [[]|e1|] eqn:V1;
      try (by apply verdict_terminates in V1);
      destruct (verdict (invalid s) b2) as [[]|e2|] eqn:V2;
      try (by apply verdict_terminates in V2);
      rewrite ?result_bind_Ok, ?result_bind_Raise;
      rewrite ?(candidate_step_verdict _ _ c1 b1 G1),
        ?(candidate_step_verdict _ _ c2 b2 G2);
      simpl (invalid _);
      rewrite ?verdict_snoc by done; rewrite ?V1, ?V2; try done.
    all: split_and!;
      [ intros k; try done; rewrite !tips_accept, Hh1, Hh2;
        repeat case_decide; congruence
      | try done; simpl; by apply insert_insert_ne
      | try done; intros x; simpl; rewrite !elem_of_app; tauto ].
  - rewrite (candidate_step_missing _ s c2 G2), result_bind_Raise.
    pose proof (candidate_step_terminates node s c1).
    destruct (candidate_step node s c1) as [s1| |]; try done.
    by rewrite result_bind_Ok, candidate_step_missing.
  - rewrite (candidate_step_missing _ s c1 G1), result_bind_Raise.
    pose proof (candidate_step_terminates node s c2).
    destruct (candidate_step node s c2) as [s1| |]; try done.
    by rewrite result_bind_Ok, candidate_step_missing.
  - by rewrite !candidate_step_missing.
Qed.

Lemma scan_candidates_two (node : Node) (s : State) (c1 c2 : string)
    (l : list string) :
  scan_candidates node s (c1 :: c2 :: l)
  = (candidate_step node s c1 ≫= fun s' => candidate_step node s' c2)
      ≫= fun s'' => scan_candidates node s'' l.
Proof. simpl. by destruct (candidate_step node s c1). Qed.

Lemma scan_candidates_after (node : Node) (l : list string)
    (r1 r2 : result State) :
  same_outcome r1 r2 →
  same_outcome (r1 ≫= fun s => scan_candidates node s l)
               (r2 ≫= fun s => scan_candidates node s l).
Proof.
  destruct r1, r2; simpl; try done. apply scan_candidates_proper.
Qed.

Lemma scan_candidates_perm (node : Node) (l1 l2 : list string) :
  l1 ≡ₚ l2 →
  NoDup l1 →
  (∀ c b, c ∈ l1 → getblock node c = Some b → hash b = c ∧ prev b ∉ l1) →
  ∀ s1 s2, same_state s1 s2 →
    same_outcome (scan_candidates node s1 l1) (scan_candidates node s2 l2).
Proof.
  induction 1 as [|x l l' Hperm IH|x y l|l l' l'' Hp1 IH1 Hp2 IH2];
    intros Hnd Hind s1 s2 Hs.
  - done.
  - apply NoDup_cons in Hnd as [_ Hnd].
    apply (scan_candidates_after node [x] (Ok s1) (Ok s2)) in Hs as Hx.
    simpl in Hx |- *.
    destruct (candidate_step node s1 x), (candidate_step node s2 x);
      simpl in *; try done.
    apply IH; [done| |done].
    intros c b Hc Hget.
    destruct (Hind c b) as [Hh Hp]; [by right|done|].
    split; [done|]. intros Hin. apply Hp. by right.
  - eapply same_outcome_trans; [|by apply scan_candidates_proper].
    rewrite !scan_candidates_two. apply scan_candidates_after.
    apply NoDup_cons in Hnd as [Hxy _].
    apply candidate_step_swap.
    + intros ->. apply Hxy. by left.
    + intros b Hget. destruct (Hind y b) as [Hh Hp]; [by left|done|].
      split; [done|]. intros Heq. apply Hp. rewrite Heq. right. by left.
    + intros b Hget. destruct (Hind x b) as [Hh Hp]; [right; by left|done|].
      split; [done|]. intros Heq. apply Hp. rewrite Heq. by left.
  - eapply same_outcome_trans.
    + apply (IH1 Hnd Hind s1 s1). apply same_state_refl.
    + apply IH2; [by rewrite <- Hp1| |done].
      intros c b Hc Hget. rewrite <- Hp1 in Hc.
      destruct (Hind c b Hc Hget) as [Hh Hp]. split; [done|].
      by rewrite <- Hp1.
Qed.

(** C8.  The candidates of one height are distinct, each fetched block
    carries the hash it was asked by, and none of them is the parent of
    another (their parents are of an earlier height).  From any state,
    taking them in one order or in a permutation of it ends alike: either
    both runs raise, or both complete, with [tips] the same mapping,
    [prevs] the same mapping and [invalid] the same set of hashes. *)
Theorem candidate_order_irrelevant (node : Node) (st : State)
    (cands cands' : list string)
    (Hperm : cands ≡ₚ cands')
    (Hdistinct : NoDup cands)
    (Hhash : ∀ c b, c ∈ cands → getblock node c = Some b → hash b = c)
    (Hparent : ∀ c b, c ∈ cands → getblock node c = Some b → prev b ∉ cands) :
  match scan_candidates node st cands, scan_candidates node st cands' with
  | Ok s, Ok s' =>
      (∀ k, obj_get (tips s) k = obj_get (tips s') k)
      ∧ prevs s = prevs s'
      ∧ (∀ x, x ∈ invalid s ↔ x ∈ invalid s')
  | Raise _, Raise _ => True
  | _, _ => False
  end.
Proof.
  assert (same_outcome (scan_candidates node st cands)
            (scan_candidates node st cands')) as H.
  { apply scan_candidates_perm; [done..| |apply same_state_refl].
    intros c b Hc Hget. split; [by eapply Hhash|by eapply Hparent]. }
  assert (∀ l s, scan_candidates node s l ≠ OutOfFuel) as Hterm.
  { induction l as [|c l IH]; intros s; simpl; [done|].
    pose proof (candidate_step_terminates node s c).
    destruct (candidate_step node s c); simpl; [apply IH|done..]. }
  pose proof (Hterm cands st). pose proof (Hterm cands' st).
  destruct (scan_candidates node st cands), (scan_candidates node st cands');
    done.
Qed.

Lemma sample_candidates_parents (c : string) (b : Block) :
  c ∈ ["t5"; "b5"; "x5"] →
  getblock (sample_node 4 "p3") c = Some b →
  prev b ∉ ["t5"; "b5"; "x5"].
Proof.
  intros Hc Hget.
  assert (prev b = "a4") as ->.
  { repeat (apply elem_of_cons in Hc as [->|Hc]);
      [..|by apply elem_of_nil in Hc];
      vm_compute in Hget; by injection Hget as <-. }
  apply (bool_decide_unpack _). vm_compute. exact I.
Qed.

Lemma candidate_order_irrelevant_witness :
  match scan_candidates (sample_node 4 "p3") st_a4 ["t5"; "b5"; "x5"],
        scan_candidates (sample_node 4 "p3") st_a4 ["x5"; "t5"; "b5"] with
  | Ok s, Ok s' =>
      (∀ k, obj_get (tips s) k = obj_get (tips s') k)
      ∧ prevs s = prevs s'
      ∧ (∀ x, x ∈ invalid s ↔ x ∈ invalid s')
  | Raise _, Raise _ => True
  | _, _ => False
  end.
Proof.
  apply (candidate_order_irrelevant (sample_node 4 "p3") st_a4).
  - apply perm_trans with ["t5"; "x5"; "b5"].
    + apply perm_skip. apply perm_swap.
    + apply perm_swap.
  - apply (bool_decide_unpack _). vm_compute. exact I.
  - intros c b _. apply sample_node_consistent.
  - apply sample_candidates_parents.
Defined.

Example sample_height5_both_orders :
  tips <$> scan_candidates (sample_node 4 "p3") st_a4 ["t5"; "b5"; "x5"]
  = Ok [("t5", blkT1); ("b5", blkB)]
  ∧ tips <$> scan_candidates (sample_node 4 "p3") st_a4 ["x5"; "b5"; "t5"]
    = Ok [("b5", blkB); ("t5", blkT1)].
Proof. split; vm_compute; reflexivity. Qed.

(** The mappings do not depend on the order of the candidates, but the
    enumeration order of [tips] does, and with it the tip chosen among
    those of equal height. *)
Example tie_follows_candidate_order :
  (scan_candidates (sample_node 4 "p3") st_a4 ["t5"; "b5"; "x5"]
     ≫= fun st => select_best (tips st)) = Ok blkB
  ∧ (scan_candidates (sample_node 4 "p3") st_a4 ["x5"; "b5"; "t5"]
       ≫= fun st => select_best (tips st)) = Ok blkT1.
Proof. split; vm_compute; reflexivity. Qed.

(** * Further properties of [showtime.js] *)

(** ** The subsidy: where it ends, and what it adds up to *)

Lemma getSubsidy_era (h h' : Z) : era h = era h' → getSubsidy h = getSubsidy h'.
Proof. unfold era, getSubsidy. by intros ->. Qed.

Lemma era_of_start (e r : Z) : 0 ≤ r < 210000 → era (e * 210000 + r) = e.
Proof.
  intros Hr. unfold era. symmetry. apply (Z.div_unique _ _ e r); lia.
Qed.

Lemma era_boundary (e : Z) : era (e * 210000) = e.
Proof. unfold era. apply Z.div_mul. lia. Qed.

Lemma subsidy_zero_from (h : Z) (Hh : 0 ≤ h) :
  numeric_value (getSubsidy h) = 0 ↔ 6930000 ≤ h.
Proof.
  pose proof (era_nonneg h Hh) as He.
  rewrite subsidy_value by done.
  assert (6930000 ≤ h ↔ 33 ≤ era h) as ->.
  { unfold era. split; intros H.
    - apply (Z.div_le_mono _ _ 210000) in H; [|lia]. by vm_compute in H.
    - destruct (Z.le_gt_cases 6930000 h) as [|Hlt]; [done|].
      assert (h / 210000 ≤ 6929999 / 210000) as Hdiv
        by (apply Z.div_le_mono; lia).
      vm_compute (6929999 / 210000) in Hdiv. lia. }
  destruct (Z.leb_spec 64 (era h)) as [Hbig|Hsmall]; [split; [lia|done]|].
  split.
  - intros Hz. destruct (Z.le_gt_cases 33 (era h)) as [|Hlt]; [done|].
    assert (0 < 5000000000 / 2 ^ era h); [|lia].
    apply Z.div_str_pos. split; [apply Z.pow_pos_nonneg; lia|].
    transitivity (2 ^ 32); [apply Z.pow_le_mono_r; lia|by vm_compute].
  - intros Hge. apply Z.div_small. split; [lia|].
    apply Z.lt_le_trans with (2 ^ 33); [by vm_compute|].
    apply Z.pow_le_mono_r; lia.
Qed.

(** X1.  For a height that is not negative the subsidy is positive below
    height 6,930,000 and zero from there on: the 33rd halving empties it,
    long before the test for 64 halvings applies. *)
Theorem getSubsidy_zero_iff (h : Z) (Hh : 0 ≤ h) :
  numeric_value (getSubsidy h) = 0 ↔ 6930000 ≤ h.
Proof. by apply subsidy_zero_from. Qed.

Lemma getSubsidy_zero_iff_witness :
  0 ≤ 6929851
  ∧ numeric_value (getSubsidy 6929851) ≠ 0
  ∧ numeric_value (getSubsidy 6930000) = 0.
Proof.
  split; [lia|]. split.
  - intros Hz. apply (getSubsidy_zero_iff 6929851) in Hz; lia.
  - apply (getSubsidy_zero_iff 6930000); lia.
Defined.

Lemma foldr_add_init (l : list Z) (a : Z) :
  foldr Z.add a l = foldr Z.add 0 l + a.
Proof. induction l as [|x l IH]; simpl; lia. Qed.

Lemma total_subsidy_succ (n : Z) :
  0 ≤ n →
  total_subsidy (n + 1) = total_subsidy n + numeric_value (getSubsidy n).
Proof.
  intros Hn. unfold total_subsidy.
  rewrite seqZ_app, fmap_app, foldr_app by lia.
  rewrite (seqZ_cons (0 + n) 1), seqZ_nil by lia.
  rewrite foldr_add_init. simpl. rewrite Z.add_0_r. done.
Qed.

Lemma era_total_S (k : nat) :
  era_total (S k)
  = era_total k + 210000 * numeric_value (getSubsidy (Z.of_nat k * 210000)).
Proof. reflexivity. Qed.

Lemma era_total_succ (e : Z) :
  0 ≤ e →
  era_total (Z.to_nat (e + 1))
  = era_total (Z.to_nat e) + 210000 * numeric_value (getSubsidy (e * 210000)).
Proof.
  intros He. rewrite Z2Nat.inj_add by lia.
  rewrite Nat.add_1_r, era_total_S. by rewrite Z2Nat.id.
Qed.

(** The sum by eras: the eras that are over, and the blocks of the
    current one. *)
Lemma total_subsidy_by_eras (n : Z) :
  0 ≤ n →
  total_subsidy n
  = era_total (Z.to_nat (era n))
    + (n `mod` 210000) * numeric_value (getSubsidy n).
Proof.
  revert n. apply (natlike_ind (fun n => total_subsidy n = _)).
  { reflexivity. }
  intros n Hn IH. rewrite <- Z.add_1_r, total_subsidy_succ, IH by done.
  set (q := era n). set (r := n `mod` 210000).
  assert (n = q * 210000 + r) as Hqr
    by (unfold q, r, era; pose proof (Z.div_mod n 210000); lia).
  assert (0 ≤ r < 210000) as Hr by (unfold r; apply Z.mod_pos_bound; lia).
  assert (0 ≤ q) as Hq by (by apply era_nonneg).
  assert (getSubsidy n = getSubsidy (q * 210000)) as Hsub.
  { apply getSubsidy_era. by rewrite era_boundary. }
  destruct (Z.eq_dec (r + 1) 210000) as [Hlast|Hmid].
  - assert (n + 1 = (q + 1) * 210000 + 0) as Hn1 by lia.
    rewrite Hn1 at 1 2. rewrite (era_of_start (q + 1) 0) by lia.
    replace (((q + 1) * 210000 + 0) `mod` 210000) with 0
      by (apply (Z.mod_unique _ _ (q + 1) 0); lia).
    rewrite era_total_succ, Hsub by done. lia.
  - assert (n + 1 = q * 210000 + (r + 1)) as Hn1 by lia.
    rewrite Hn1 at 1 2. rewrite (era_of_start q (r + 1)) by lia.
    replace ((q * 210000 + (r + 1)) `mod` 210000) with (r + 1)
      by (apply (Z.mod_unique _ _ q (r + 1)); lia).
    rewrite (getSubsidy_era (n + 1) (q * 210000)), Hsub; [lia|].
    rewrite Hn1, (era_of_start q (r + 1)), era_boundary by lia. done.
Qed.

Lemma era_total_bounded (e : nat) : era_total e ≤ 2099999997690000.
Proof.
  assert (∀ k, (k ≤ 64)%nat → era_total k ≤ era_total 64) as Hlow.
  { intros k Hk. replace 64%nat with (k + (64 - k))%nat by lia.
    generalize (64 - k)%nat. intros d. induction d as [|d IH].
    - by rewrite Nat.add_0_r.
    - rewrite Nat.add_succ_r, era_total_S.
      pose proof (subsidy_value_nonneg (Z.of_nat (k + d) * 210000)). lia. }
  assert (∀ d, era_total (64 + d) = era_total 64) as Hhigh.
  { induction d as [|d IH]; [done|].
    rewrite Nat.add_succ_r, era_total_S, IH.
    assert (numeric_value (getSubsidy (Z.of_nat (64 + d) * 210000)) = 0) as ->;
      [|lia].
    apply subsidy_zero_from; lia. }
  assert (era_total 64 = 2099999997690000) as H64 by (vm_compute; reflexivity).
  destruct (Nat.le_gt_cases e 64) as [Hle|Hgt].
  - rewrite <- H64. by apply Hlow.
  - replace e with (64 + (e - 64))%nat by lia. rewrite Hhigh. lia.
Qed.

(** X2.  However many blocks are mined, their subsidies add up to at most
    2,099,999,997,690,000 satoshis, under the 21 million coins of the
    comment of [getSubsidy], and to exactly that from height 6,930,000
    on. *)
Theorem total_subsidy_cap (n : Z) (Hn : 0 ≤ n) :
  total_subsidy n ≤ 2099999997690000
  ∧ 2099999997690000 < 21000000 * 100000000
  ∧ (6930000 ≤ n → total_subsidy n = 2099999997690000).
Proof.
  pose proof (era_nonneg n Hn) as He.
  pose proof (subsidy_value_nonneg n Hn) as Hs.
  rewrite total_subsidy_by_eras by done.
  split_and!.
  - pose proof (era_total_bounded (Z.to_nat (era n + 1))) as Hb.
    rewrite era_total_succ in Hb by done.
    rewrite <- (getSubsidy_era n (era n * 210000)) in Hb
      by (by rewrite era_boundary).
    pose proof (Z.mod_pos_bound n 210000). nia.
  - reflexivity.
  - intros Hbig. apply subsidy_zero_from in Hbig as Hz; [|done].
    rewrite Hz, Z.mul_0_r, Z.add_0_r.
    assert (33 ≤ era n) as H33.
    { apply (Z.div_le_mono _ _ 210000) in Hbig; [|lia]. by vm_compute in Hbig. }
    replace (Z.to_nat (era n)) with (33 + Z.to_nat (era n - 33))%nat by lia.
    generalize (Z.to_nat (era n - 33)). intros d.
    induction d as [|d IH]; [vm_compute; reflexivity|].
    rewrite Nat.add_succ_r, era_total_S, IH.
    assert (numeric_value (getSubsidy (Z.of_nat (33 + d) * 210000)) = 0) as ->;
      [|lia].
    apply subsidy_zero_from; lia.
Qed.

Lemma total_subsidy_cap_witness :
  0 ≤ 420000
  ∧ total_subsidy 420000 ≤ 2099999997690000.
Proof.
  split; [lia|]. apply (total_subsidy_cap 420000). lia.
Defined.

(** ** The coinbase rule: what it tests, what it reads *)



(** X4.  A block without transactions, or whose first transaction has no
    output, makes [validateBlock] raise: the TypeError of reading a
    property of [undefined] below era 64, and from era 64 on the TypeError
    of [subsidy + fee], which is evaluated first. *)
Theorem validateBlock_malformed (b : Block) (Hwf : well_formed b = false) :
  validateBlock b
  = Raise (if 64 <=? era (height b) then TypeError_mix_BigInt
           else TypeError_undefined_property).
Proof.
  unfold validateBlock, getSubsidy, era, well_formed in *.
  destruct (64 <=? height b / 210000); [done|]. simpl.
  destruct (txs b) as [|cb rest]; [done|]. simpl.
  by destruct (outputs cb).
Qed.

Lemma validateBlock_malformed_witness :
  validateBlock {| hash := "b"; prev := "a"; height := 0; txs := [] |}
  = Raise TypeError_undefined_property
  ∧ validateBlock {| hash := "b"; prev := "a"; height := 13440000;
                     txs := [ {| inputs := []; outputs := [] |} ] |}
    = Raise TypeError_mix_BigInt.
Proof.
  split.
  - apply (validateBlock_malformed
             {| hash := "b"; prev := "a"; height := 0; txs := [] |}).
    reflexivity.
  - apply (validateBlock_malformed
             {| hash := "b"; prev := "a"; height := 13440000;
                txs := [ {| inputs := []; outputs := [] |} ] |}).
    reflexivity.
Defined.



(** ** The report *)

Lemma walk_Ok_lineage (prevs : gmap string string) (fuel : nat) :
  ∀ (x : string) (acc v : list string),
    walk fuel prevs x acc = Ok v →
    ∃ c, v = acc ++ c ∧ lineage prevs (x :: c).
Proof.
  induction fuel as [|fuel IH]; intros x acc v Hw; [done|].
  rewrite walk_unfold in Hw.
  destruct (parent_seen prevs x) as [p|] eqn:Hp.
  - apply IH in Hw as (c & -> & Hlin).
    exists (p :: c). split; [by rewrite <- app_assoc|]. by split.
  - injection Hw as <-. exists []. by rewrite app_nil_r.
Qed.

Lemma lineage_last (prevs : gmap string string) (c : list string)
    (x : string) :
  lineage prevs c → last c = Some x → parent_seen prevs x = None.
Proof.
  induction c as [|a t IH]; [done|]. intros Hlin Hlast.
  destruct t as [|b t'].
  - simpl in Hlast. by injection Hlast as <-.
  - destruct Hlin as (_ & Hrest). rewrite last_cons_cons in Hlast. auto.
Qed.

Lemma select_best_is_tip (ts : list (string * Block)) (best : Block) :
  select_best ts = Ok best → best ∈ obj_values ts.
Proof.
  intros Hbest. destruct ts as [|kb r]; [done|].
  destruct (select_best_split (kb :: r)) as (b & l1 & l2 & Hb & -> & _);
    [done|].
  rewrite Hbest in Hb. injection Hb as <-.
  apply elem_of_app. right. by left.
Qed.

(** X6.  Whenever the last two phases return a report, [valid] is a chain
    without repetition that ends with the hash of the selected tip, in
    which each hash is the [prevs] entry of the next and for whose first
    hash the loop saw no parent; [invalid] is reported as the scan left
    it. *)
Theorem finish_report_shape (fuel : nat) (st : State) (r : Report)
    (Hfin : finish fuel st = Ok r) :
  ∃ best,
    select_best (tips st) = Ok best
    ∧ best ∈ obj_values (tips st)
    ∧ last (valid r) = Some (hash best)
    ∧ NoDup (valid r)
    ∧ (∀ x, head (valid r) = Some x → parent_seen (prevs st) x = None)
    ∧ (∀ (i : nat) (x y : string),
         valid r !! i = Some x → valid r !! S i = Some y →
         prevs st !! y = Some x)
    ∧ report_invalid r = invalid st.
Proof.
  unfold finish in Hfin.
  destruct (select_best (tips st)) as [best| |] eqn:Hbest; try done.
  simpl in Hfin.
  destruct (walk fuel (prevs st) (hash best) [hash best]) as [v| |] eqn:Hw;
    try done.
  simpl in Hfin. injection Hfin as <-. simpl.
  apply walk_Ok_lineage in Hw as (c & -> & Hlin).
  change ([hash best] ++ c) with (hash best :: c).
  exists best. split_and!; try done.
  - by apply select_best_is_tip.
  - by rewrite last_reverse.
  - rewrite reverse_Permutation. by apply (lineage_NoDup (prevs st)).
  - intros x. rewrite head_reverse. by apply lineage_last.
  - intros i x y Hx Hy. set (L := hash best :: c) in *.
    assert (S i < length L)%nat as Hi.
    { apply lookup_lt_Some in Hy. by rewrite length_reverse in Hy. }
    rewrite reverse_lookup in Hx, Hy by lia.
    apply (lineage_links _ _ Hlin (length L - S (S i))); [done|].
    by replace (S (length L - S (S i))) with (length L - S i)%nat by lia.
Qed.

Lemma finish_report_shape_witness :
  ∃ best,
    select_best (tips (st_end "p3")) = Ok best
    ∧ best ∈ obj_values (tips (st_end "p3"))
    ∧ last ["p3"; "a4"; "b5"; "c6"; "t7"] = Some (hash best)
    ∧ NoDup ["p3"; "a4"; "b5"; "c6"; "t7"]
    ∧ (∀ x, head ["p3"; "a4"; "b5"; "c6"; "t7"] = Some x →
            parent_seen (prevs (st_end "p3")) x = None)
    ∧ (∀ (i : nat) (x y : string),
         ["p3"; "a4"; "b5"; "c6"; "t7"] !! i = Some x →
         ["p3"; "a4"; "b5"; "c6"; "t7"] !! S i = Some y →
         prevs (st_end "p3") !! y = Some x)
    ∧ invalid (st_end "p3") = invalid (st_end "p3").
Proof.
  apply (finish_report_shape 10 (st_end "p3")
           {| valid := ["p3"; "a4"; "b5"; "c6"; "t7"];
              report_invalid := invalid (st_end "p3") |}).
  vm_compute. reflexivity.
Defined.

(** ** A chain of parents that closes on itself *)



(** ** What the scan records *)

Lemma scan_heights_no_candidates (node : Node) (st : State) (hs : list Z) :
  (∀ h, h ∈ hs → getblocksbyheight node h = []) →
  scan_heights node st hs = Ok st.
Proof.
  induction hs as [|h hs IH]; intros Hno; simpl; [done|].
  rewrite (Hno h) by by left. simpl. apply IH.
  intros h' Hh'. apply Hno. by right.
Qed.

(** X8.  When the node lists no candidate for any height from the first
    one to the one it reports, as when it reports a height below the
    first, [showtime] raises the TypeError of [reduce] on an empty
    array. *)
Theorem showtime_nothing_to_scan (start : Z) (fuel : nat) (node : Node)
    (Hnone : ∀ h, start ≤ h ≤ getinfo_blocks node →
                  getblocksbyheight node h = []) :
  showtime_from start fuel node = Raise TypeError_reduce_empty.
Proof.
  unfold showtime_from. rewrite scan_heights_no_candidates; [done|].
  intros h Hh. apply elem_of_seqZ in Hh. apply Hnone. lia.
Qed.

Lemma showtime_nothing_to_scan_witness :
  showtime_from 4 10 short_node = Raise TypeError_reduce_empty.
Proof.
  apply (showtime_nothing_to_scan 4 10 short_node).
  intros h Hh. simpl in Hh. lia.
Defined.

Lemma candidate_step_classifies (node : Node) (st st' : State) (x : string) :
  candidate_step node st x = Ok st' →
  classified st' x ∧ ∀ c, classified st c → classified st' c.
Proof.
  intros Hstep.
  apply candidate_step_Ok in Hstep as (b & _ & [[-> _]|[-> _]]);
    unfold classified; simpl.
  - split.
    + left. apply elem_of_app. right. by left.
    + intros c [Hc|Hc]; [left|by right]. apply elem_of_app. by left.
  - split.
    + right. rewrite lookup_insert_eq. by eexists.
    + intros c [Hc|Hc]; [by left|right].
      destruct (decide (x = c)) as [->|Hne].
      * rewrite lookup_insert_eq. by eexists.
      * by rewrite lookup_insert_ne.
Qed.

Lemma scan_candidates_classifies (node : Node) (l : list string) :
  ∀ st st', scan_candidates node st l = Ok st' →
    (∀ c, c ∈ l → classified st' c)
    ∧ (∀ c, classified st c → classified st' c).
Proof.
  induction l as [|x l IH]; intros st st'; simpl.
  - intros [= <-]. split; [|done]. intros c Hc. by apply elem_of_nil in Hc.
  - destruct (candidate_step node st x) as [s1| |] eqn:Hstep; try done.
    simpl. intros Hrest.
    apply candidate_step_classifies in Hstep as [Hx Hmono].
    apply IH in Hrest as [Hall Hmono']. split.
    + intros c Hc. apply elem_of_cons in Hc as [->|Hc]; auto.
    + auto.
Qed.

(** X9.  When the scan of the heights completes, every candidate that the
    node listed for one of them has been classified: its hash is in
    [invalid], or it has an entry in [prevs].  Neither record is ever
    withdrawn. *)
Theorem scan_heights_classifies (node : Node) (hs : list Z) (st st' : State)
    (Hscan : scan_heights node st hs = Ok st') :
  (∀ h c, h ∈ hs → c ∈ getblocksbyheight node h → classified st' c)
  ∧ (∀ c, classified st c → classified st' c).
Proof.
  revert st Hscan. induction hs as [|h0 hs IH]; intros st; simpl.
  - intros [= <-]. split; [|done]. intros h c Hh. by apply elem_of_nil in Hh.
  - destruct (scan_candidates node st (getblocksbyheight node h0))
      as [s1| |] eqn:Hh0; try done.
    simpl. intros Hrest.
    apply scan_candidates_classifies in Hh0 as [Hall Hmono].
    apply IH in Hrest as [Hall' Hmono']. split.
    + intros h c Hh Hc. apply elem_of_cons in Hh as [->|Hh]; eauto.
    + auto.
Qed.

Lemma scan_heights_classifies_witness :
  classified (st_end "p3") "x5" ∧ classified (st_end "p3") "c6".
Proof.
  destruct (scan_heights_classifies (sample_node 4 "p3") (seqZ 4 4) init
              (st_end "p3")) as [Hall _].
  - vm_compute. reflexivity.
  - split.
    + apply (Hall 5); [apply elem_of_seqZ; lia|].
      apply (bool_decide_unpack _). vm_compute. exact I.
    + apply (Hall 6); [apply elem_of_seqZ; lia|].
      apply (bool_decide_unpack _). vm_compute. exact I.
Defined.

Lemma scan_candidates_provenance (node : Node) (l : list string) :
  ∀ st st', scan_candidates node st l = Ok st' →
    (∀ x, x ∈ invalid st' → x ∈ invalid st ∨ x ∈ l)
    ∧ (∀ k, is_Some (prevs st' !! k) → is_Some (prevs st !! k) ∨ k ∈ l).
Proof.
  induction l as [|c l IH]; intros st st'; simpl.
  - intros [= <-]. auto.
  - destruct (candidate_step node st c) as [s1| |] eqn:Hstep; try done.
    simpl. intros Hrest. apply IH in Hrest as [Hinv Hprevs].
    apply candidate_step_Ok in Hstep as (b & _ & [[-> _]|[-> _]]);
      simpl in *.
    + split.
      * intros x Hx. destruct (Hinv x Hx) as [Hin|Hin].
        -- apply elem_of_app in Hin as [Hin|Hin]; [by left|].
           apply list_elem_of_singleton in Hin as ->. right. by left.
        -- right. by right.
      * intros k Hk. destruct (Hprevs k Hk); [by left|right; by right].
    + split.
      * intros x Hx. destruct (Hinv x Hx); [by left|right; by right].
      * intros k Hk. destruct (Hprevs k Hk) as [Hin|Hin].
        -- destruct (decide (c = k)) as [->|Hne]; [right; by left|].
           left. by rewrite lookup_insert_ne in Hin.
        -- right. by right.
Qed.

Lemma scan_heights_provenance (node : Node) (hs : list Z) (st' : State) :
  scan_heights node init hs = Ok st' →
  (∀ x, x ∈ invalid st' → ∃ h, h ∈ hs ∧ x ∈ getblocksbyheight node h)
  ∧ (∀ k, is_Some (prevs st' !! k) →
          ∃ h, h ∈ hs ∧ k ∈ getblocksbyheight node h).
Proof.
  rewrite scan_heights_flat. intros Hscan.
  apply scan_candidates_provenance in Hscan as [Hinv Hprevs].
  assert (∀ x, x ∈ concat (getblocksbyheight node <$> hs) →
               ∃ h, h ∈ hs ∧ x ∈ getblocksbyheight node h) as Hflat.
  { intros x Hx. apply list_elem_of_In, in_concat in Hx as (l & Hl & Hxl).
    apply list_elem_of_In in Hl, Hxl.
    apply list_elem_of_fmap in Hl as (h & -> & Hh). eauto. }
  split.
  - intros x Hx. destruct (Hinv x Hx) as [Hin|Hin]; [|by apply Hflat].
    by apply elem_of_nil in Hin.
  - intros k Hk. destruct (Hprevs k Hk) as [Hin|Hin]; [|by apply Hflat].
    simpl in Hin. rewrite lookup_empty in Hin. by destruct Hin.
Qed.

Lemma finish_Ok_inv (fuel : nat) (st : State) (r : Report) :
  finish fuel st = Ok r →
  ∃ best c,
    select_best (tips st) = Ok best
    ∧ lineage (prevs st) (hash best :: c)
    ∧ r = {| valid := reverse (hash best :: c);
             report_invalid := invalid st |}.
Proof.
  unfold finish. intros Hfin.
  destruct (select_best (tips st)) as [best| |] eqn:Hbest; try done.
  simpl in Hfin.
  destruct (walk fuel (prevs st) (hash best) [hash best]) as [v| |] eqn:Hw;
    try done.
  simpl in Hfin. injection Hfin as <-.
  apply walk_Ok_lineage in Hw as (c & -> & Hlin). by exists best, c.
Qed.

(** X10.  Whatever [showtime] reports comes from the scan: every hash of
    [invalid], and every hash of [valid] after the first, is a candidate
    that the node listed for a height of the scanned range.  The first
    hash of [valid] need not be. *)
Theorem showtime_reports_scanned (start : Z) (fuel : nat) (node : Node)
    (r : Report) (Hrun : showtime_from start fuel node = Ok r) :
  (∀ x, x ∈ report_invalid r → scanned node start x)
  ∧ (∀ x, x ∈ tail (valid r) → scanned node start x).
Proof.
  unfold showtime_from in Hrun.
  destruct (scan_heights node init _) as [st| |] eqn:Hscan; try done.
  simpl in Hrun.
  apply scan_heights_provenance in Hscan as [Hinv Hprevs].
  assert (∀ h x, h ∈ seqZ start (getinfo_blocks node - start + 1) →
                 x ∈ getblocksbyheight node h → scanned node start x) as Hsc.
  { intros h x Hh Hx. exists h. split; [|done]. apply elem_of_seqZ in Hh. lia. }
  apply finish_Ok_inv in Hrun as (best & c & _ & Hlin & ->). simpl. split.
  - intros x Hx. destruct (Hinv x Hx) as (h & Hh & Hxh). eauto.
  - intros x Hx. set (L := hash best :: c) in *.
    apply list_elem_of_lookup in Hx as [i Hi]. rewrite lookup_tail in Hi.
    assert (S i < length L)%nat as Hlen.
    { apply lookup_lt_Some in Hi. by rewrite length_reverse in Hi. }
    rewrite reverse_lookup in Hi by lia.
    destruct (lookup_lt_is_Some_2 L (S (length L - S (S i)))) as [x' Hx'];
      [lia|].
    pose proof (lineage_links _ _ Hlin _ _ _ Hi Hx') as Hp.
    destruct (Hprevs x) as (h & Hh & Hxh); [by eexists|]. eauto.
Qed.

Lemma showtime_reports_scanned_witness :
  (∀ x, x ∈ ["x5"; "y6"] → scanned (sample_node 4 "p3") 4 x)
  ∧ (∀ x, x ∈ tail ["p3"; "a4"; "b5"; "c6"; "t7"] →
          scanned (sample_node 4 "p3") 4 x).
Proof.
  apply (showtime_reports_scanned 4 10 (sample_node 4 "p3")
           {| valid := ["p3"; "a4"; "b5"; "c6"; "t7"];
              report_invalid := ["x5"; "y6"] |}).
  vm_compute. reflexivity.
Defined.

Example first_of_valid_not_scanned : ¬ scanned (sample_node 4 "p3") 4 "p3".
Proof.
  intros (h & Hh & Hin). simpl in Hh, Hin.
  apply list_elem_of_fmap in Hin as (b & Hb & Hin).
  apply list_elem_of_filter in Hin as [_ Hin].
  repeat (apply elem_of_cons in Hin as [->|Hin]; [discriminate Hb|]).
  by apply elem_of_nil in Hin.
Qed.

(** ** When no block is accepted *)

Lemma validateBlock_raises (b : Block) (e : js_error) :
  validateBlock b = Raise e →
  e = TypeError_mix_BigInt ∨ e = TypeError_undefined_property.
Proof.
  unfold validateBlock, js_add, js_index.
  destruct (getSubsidy (height b)); simpl; [|intros [= <-]; by left].
  destruct (txs b) as [|cb rest]; simpl; [intros [= <-]; by right|].
  destruct (outputs cb); simpl; [intros [= <-]; by right|done].
Qed.

Lemma candidate_step_raises (node : Node) (st : State) (c : string)
    (e : js_error) :
  candidate_step node st c = Raise e → e ≠ TypeError_reduce_empty.
Proof.
  rewrite candidate_step_unfold.
  destruct (getblock node c) as [b|]; [|by intros [= <-]].
  case_bool_decide; [done|].
  destruct (validateBlock b) as [[]|e'|] eqn:Hv; try done.
  intros [= <-]. by apply validateBlock_raises in Hv as [-> | ->].
Qed.

Lemma scan_candidates_raises (node : Node) (l : list string) :
  ∀ st e, scan_candidates node st l = Raise e → e ≠ TypeError_reduce_empty.
Proof.
  induction l as [|c l IH]; intros st e; simpl; [done|].
  destruct (candidate_step node st c) as [s1|e'|] eqn:Hstep; simpl.
  - apply IH.
  - intros [= <-]. by eapply candidate_step_raises.
  - done.
Qed.

Lemma scan_candidates_tips_prevs (node : Node) (l : list string) :
  ∀ st st', (tips st = [] ↔ prevs st = ∅) →
    scan_candidates node st l = Ok st' →
    (tips st' = [] ↔ prevs st' = ∅).
Proof.
  induction l as [|c l IH]; intros st st' Hinv; simpl.
  - by intros [= <-].
  - destruct (candidate_step node st c) as [s1| |] eqn:Hstep; try done.
    simpl. apply IH.
    apply candidate_step_Ok in Hstep as (b & _ & [[-> _]|[-> _]]); [done|].
    simpl. split.
    + intros Hnil. exfalso. revert Hnil.
      generalize (if obj_get (tips st) (prev b) is Some _
                  then obj_delete (prev b) (tips st) else tips st).
      intros [|[k v] o]; simpl; [done|]. by destruct (decide (k = hash b)).
    + intros Hemp. by apply insert_non_empty in Hemp.
Qed.

Lemma walk_never_raises (prevs : gmap string string) (fuel : nat) :
  ∀ (x : string) (acc : list string) (e : js_error),
    walk fuel prevs x acc ≠ Raise e.
Proof.
  induction fuel as [|fuel IH]; intros x acc e; [done|].
  rewrite walk_unfold. destruct (parent_seen prevs x); [apply IH|done].
Qed.

(** X11.  [showtime] raises the TypeError of [reduce] on an empty array in
    one case only: the scan has completed and has accepted no block, so
    that [prevs] is empty.  No exception of the scan is mistaken for it,
    and once a block is accepted there is a tip to select. *)
Theorem showtime_raises_reduce_iff (start : Z) (fuel : nat) (node : Node) :
  showtime_from start fuel node = Raise TypeError_reduce_empty
  ↔ ∃ st,
      scan_heights node init (seqZ start (getinfo_blocks node - start + 1))
      = Ok st
      ∧ prevs st = ∅.
Proof.
  unfold showtime_from.
  destruct (scan_heights node init _) as [st|e|] eqn:Hscan; simpl.
  - assert (tips st = [] ↔ prevs st = ∅) as Hinv.
    { rewrite scan_heights_flat in Hscan.
      by apply (scan_candidates_tips_prevs _ _ init st) in Hscan. }
    split.
    + intros Hfin. exists st. split; [done|]. apply Hinv.
      unfold finish, select_best, obj_values in Hfin.
      destruct (tips st) as [|kb r]; [done|]. simpl in Hfin.
      destruct (walk _ _ _ _) as [v|e|] eqn:Hw; try done.
      by apply walk_never_raises in Hw.
    + intros (st' & [= <-] & Hemp). apply Hinv in Hemp.
      unfold finish, select_best. by rewrite Hemp.
  - split.
    + intros [= ->]. rewrite scan_heights_flat in Hscan.
      by apply scan_candidates_raises in Hscan.
    + by intros (st' & ? & _).
  - split; [done|]. by intros (st' & ? & _).
Qed.

(** ** Where the reported chain begins *)

Lemma elem_of_obj_set {A : Type} (k : string) (v : A)
    (o : list (string * A)) (x : string * A) :
  x ∈ obj_set k v o → x = (k, v) ∨ x ∈ o.
Proof.
  induction o as [|[k0 v0] o IH]; simpl.
  - intros Hx. apply list_elem_of_singleton in Hx. by left.
  - destruct (decide (k0 = k)).
    + intros Hx. apply elem_of_cons in Hx as [->|Hx]; [by left|].
      right. by right.
    + intros Hx. apply elem_of_cons in Hx as [->|Hx]; [right; by left|].
      destruct (IH Hx); [by left|right; by right].
Qed.

Lemma elem_of_obj_delete {A : Type} (k : string) (o : list (string * A))
    (x : string * A) :
  x ∈ obj_delete k o → x ∈ o.
Proof.
  induction o as [|[k0 v0] o IH]; simpl; [done|].
  destruct (decide (k0 = k)).
  - intros Hx. right. by apply IH.
  - intros Hx. apply elem_of_cons in Hx as [->|Hx]; [by left|].
    right. by apply IH.
Qed.

Lemma truthy_nonempty (p : string) : p ≠ "" → truthy p = true.
Proof. by destruct p. Qed.

(** Every tip is a block of the node, with its parent recorded, and every
    recorded parent is a non-empty string when the node has no block
    without a parent. *)
Lemma scan_candidates_tips_of_node (node : Node) (l : list string) :
  consistent node →
  (∀ c b, getblock node c = Some b → prev b ≠ "") →
  ∀ st st',
    (∀ k b, (k, b) ∈ tips st →
            getblock node (hash b) = Some b
            ∧ prevs st !! hash b = Some (prev b)) →
    (∀ k p, prevs st !! k = Some p → p ≠ "") →
    scan_candidates node st l = Ok st' →
    (∀ k b, (k, b) ∈ tips st' →
            getblock node (hash b) = Some b
            ∧ prevs st' !! hash b = Some (prev b))
    ∧ (∀ k p, prevs st' !! k = Some p → p ≠ "").
Proof.
  intros Hcons Hprev. induction l as [|c l IH]; intros st st' Htips Hvals;
    simpl.
  - by intros [= <-].
  - destruct (candidate_step node st c) as [s1| |] eqn:Hstep; try done.
    simpl. apply IH; clear IH;
      apply candidate_step_Ok in Hstep as (bc & Hget & [[-> _]|[-> _]]);
      try done; simpl.
    + intros k b Hin. pose proof (Hcons _ _ Hget) as Hh.
      apply elem_of_obj_set in Hin as [[= -> ->]|Hin].
      * by rewrite Hh, lookup_insert_eq.
      * assert ((k, b) ∈ tips st) as Hold.
        { destruct (obj_get (tips st) (prev bc)); [|done].
          by apply elem_of_obj_delete in Hin. }
        destruct (Htips k b Hold) as [Hgb Hpb]. split; [done|].
        destruct (decide (c = hash b)) as [->|Hne].
        -- rewrite lookup_insert_eq. congruence.
        -- by rewrite lookup_insert_ne.
    + intros k p. destruct (decide (c = k)) as [->|Hne].
      * rewrite lookup_insert_eq. intros [= <-]. by eapply Hprev.
      * rewrite lookup_insert_ne by done. apply Hvals.
Qed.

(** X12.  On a consistent node all of whose blocks name a parent, a report
    of [showtime] never begins with an accepted block: [valid] has at least
    two hashes, and for the first of them [prevs] has no entry.  It is the
    parent that the oldest accepted ancestor of the selected tip names. *)
Theorem valid_begins_below_accepted (node : Node) (hs : list Z)
    (fuel : nat) (st : State) (r : Report)
    (Hcons : consistent node)
    (Hprev : ∀ c b, getblock node c = Some b → prev b ≠ "")
    (Hscan : scan_heights node init hs = Ok st)
    (Hfin : finish fuel st = Ok r) :
  (2 ≤ length (valid r))%nat
  ∧ ∃ first, head (valid r) = Some first ∧ prevs st !! first = None.
Proof.
  rewrite scan_heights_flat in Hscan.
  apply (scan_candidates_tips_of_node node _ Hcons Hprev init st)
    in Hscan as [Htips Hvals].
  2: { intros k b Hin. by apply elem_of_nil in Hin. }
  2: { intros k p Hk. simpl in Hk. by rewrite lookup_empty in Hk. }
  apply finish_Ok_inv in Hfin as (best & c & Hbest & Hlin & ->). simpl.
  apply select_best_is_tip in Hbest.
  apply list_elem_of_fmap in Hbest as ([k b] & -> & Hin). simpl in *.
  destruct (Htips k b Hin) as [Hget Hp].
  assert (parent_seen (prevs st) (hash b) = Some (prev b)) as Hseen.
  { unfold parent_seen. rewrite Hp, truthy_nonempty; [done|]. by eapply Hprev. }
  destruct c as [|y c'].
  { simpl in Hlin. congruence. }
  split.
  - rewrite length_reverse. simpl. lia.
  - rewrite head_reverse.
    destruct (last (hash b :: y :: c')) as [x|] eqn:Hlast.
    2: { by apply last_None in Hlast. }
    exists x. split; [done|].
    pose proof (lineage_last (prevs st) (hash b :: y :: c') x Hlin Hlast)
      as Hnone.
    unfold parent_seen in Hnone.
    destruct (prevs st !! x) as [p|] eqn:Hx; [|done].
    apply Hvals in Hx. by rewrite truthy_nonempty in Hnone.
Qed.

Lemma valid_begins_below_accepted_witness :
  (2 ≤ length ["p3"; "a4"; "b5"; "c6"; "t7"])%nat
  ∧ ∃ first, head ["p3"; "a4"; "b5"; "c6"; "t7"] = Some first
             ∧ prevs (st_end "p3") !! first = None.
Proof.
  apply (valid_begins_below_accepted (sample_node 4 "p3") (seqZ 4 4) 10
           (st_end "p3")
           {| valid := ["p3"; "a4"; "b5"; "c6"; "t7"];
              report_invalid := ["x5"; "y6"] |}).
  - apply sample_node_consistent.
  - intros c b Hget. simpl in Hget. apply head_Some_elem_of in Hget.
    apply list_elem_of_filter in Hget as [_ Hin].
    repeat (apply elem_of_cons in Hin as [->|Hin]; [discriminate|]).
    by apply elem_of_nil in Hin.
  - vm_compute. reflexivity.
  - vm_compute. reflexivity.
Defined.

(** * Properties of [The-ins-and-outs.js] *)

(** ** Bytes and little-endian numbers *)

Lemma Z_of_byte_range (b : Byte.byte) : 0 ≤ Ch6.Z_of_byte b < 256.
Proof.
  unfold Ch6.Z_of_byte. pose proof (Byte.to_N_bounded b). lia.
Qed.

Lemma Z_of_byte_of_Z (z : Z) : Ch6.Z_of_byte (Ch6.byte_of_Z z) = z `mod` 256.
Proof.
  unfold Ch6.Z_of_byte, Ch6.byte_of_Z.
  pose proof (Z.mod_pos_bound z 256 ltac:(lia)) as Hm.
  destruct (Byte.of_N (Z.to_N (z `mod` 256))) as [b|] eqn:E; simpl.
  - apply Byte.to_of_N in E. rewrite E. lia.
  - apply Byte.of_N_None_iff in E. lia.
Qed.

Lemma byte_of_Z_of_byte (b : Byte.byte) : Ch6.byte_of_Z (Ch6.Z_of_byte b) = b.
Proof.
  unfold Ch6.Z_of_byte, Ch6.byte_of_Z.
  pose proof (Byte.to_N_bounded b) as Hb.
  rewrite Z.mod_small by lia. rewrite N2Z.id, Byte.of_to_N. done.
Qed.

Lemma le_bytes_length (n : nat) (v : Z) : length (Ch6.le_bytes n v) = n.
Proof. revert v. induction n as [|n IH]; intros v; simpl; [done|]. by rewrite IH. Qed.

Lemma le_value_le_bytes (n : nat) :
  ∀ v, 0 ≤ v < 256 ^ Z.of_nat n → Ch6.le_value (Ch6.le_bytes n v) = v.
Proof.
  induction n as [|n IH]; intros v Hv.
  - simpl in *. lia.
  - cbn [Ch6.le_bytes Ch6.le_value]. rewrite Z_of_byte_of_Z, IH.
    + pose proof (Z.div_mod v 256). lia.
    + rewrite Nat2Z.inj_succ, Z.pow_succ_r in Hv by lia.
      split; [apply Z.div_pos; lia|].
      apply Z.div_lt_upper_bound; lia.
Qed.

Lemma le_bytes_le_value (bs : list Byte.byte) :
  Ch6.le_bytes (length bs) (Ch6.le_value bs) = bs
  ∧ 0 ≤ Ch6.le_value bs < 256 ^ Z.of_nat (length bs).
Proof.
  induction bs as [|b r [IHeq IHr]]; [by split|].
  pose proof (Z_of_byte_range b) as Hb.
  cbn [Ch6.le_value length Ch6.le_bytes]. split.
  - f_equal.
    + rewrite <- (byte_of_Z_of_byte b) at 2. unfold Ch6.byte_of_Z.
      do 3 f_equal. rewrite (Z.mod_small (Ch6.Z_of_byte b)) by lia.
      symmetry. apply (Z.mod_unique _ _ (Ch6.le_value r)); lia.
    + assert ((Ch6.Z_of_byte b + 256 * Ch6.le_value r) `div` 256
              = Ch6.le_value r) as ->; [|done].
      symmetry. apply (Z.div_unique _ _ _ (Ch6.Z_of_byte b)); lia.
  - rewrite Nat2Z.inj_succ, Z.pow_succ_r by lia. lia.
Qed.

(** ** Outpoints *)

Lemma copy_to_length (source target : list Byte.byte) :
  length (Ch6.copy_to source target) = length target.
Proof. unfold Ch6.copy_to. rewrite length_app, length_take, length_drop. lia. Qed.

Lemma write_le_unfold (n : nat) (v : Z) (off : nat) (buf : list Byte.byte) :
  (off + n ≤ length buf)%nat →
  Ch6.write_le n v off buf =
    if bool_decide (0 ≤ v < 256 ^ Z.of_nat n)
    then Ch6.Done (take off buf ++ Ch6.le_bytes n v ++ drop (off + n) buf)
    else Ch6.Throw Ch6.RangeError.
Proof.
  intros Hlen. unfold Ch6.write_le.
  case_bool_decide as H1; case_bool_decide as H2; try done; tauto.
Qed.

Lemma Outpoint_serialize_unfold (o : Ch6.Outpoint) :
  Ch6.Outpoint_serialize o =
    if bool_decide (0 ≤ Ch6.index o < 4294967296)
    then Ch6.Done (take 32 (Ch6.copy_to (Ch6.txid o) (Ch6.alloc 36))
                   ++ Ch6.le_bytes 4 (Ch6.index o))
    else Ch6.Throw Ch6.RangeError.
Proof.
  unfold Ch6.Outpoint_serialize.
  rewrite write_le_unfold
    by (rewrite copy_to_length; unfold Ch6.alloc; rewrite length_replicate; lia).
  change (256 ^ Z.of_nat 4) with 4294967296.
  case_bool_decide; [|done]. do 2 f_equal.
  rewrite drop_ge, app_nil_r; [done|].
  rewrite copy_to_length. unfold Ch6.alloc. rewrite length_replicate. lia.
Qed.

Lemma Outpoint_serialize_length (o : Ch6.Outpoint) (bs : list Byte.byte) :
  Ch6.Outpoint_serialize o = Ch6.Done bs → length bs = 36%nat.
Proof.
  rewrite Outpoint_serialize_unfold. case_bool_decide; [|done].
  intros [= <-]. rewrite length_app, length_take, copy_to_length.
  unfold Ch6.alloc. rewrite length_replicate. simpl. lia.
Qed.

Lemma copy_to_txid (t : list Byte.byte) :
  length t = 32%nat →
  take 32 (Ch6.copy_to t (Ch6.alloc 36)) = t.
Proof.
  intros Hlen. unfold Ch6.copy_to, Ch6.alloc.
  rewrite length_replicate, (take_ge t) by lia.
  rewrite take_app_le by lia. apply take_ge. lia.
Qed.

Lemma new_Outpoint_Done (t : list Byte.byte) (i : Z) (o : Ch6.Outpoint) :
  Ch6.new_Outpoint t i = Ch6.Done o →
  length t = 32%nat ∧ o = {| Ch6.txid := t; Ch6.index := i |}.
Proof.
  unfold Ch6.new_Outpoint. case_bool_decide; [|done]. by intros [= <-].
Qed.

(** X13.  An outpoint made by the constructor, with an index of 32 bits,
    serializes to 36 bytes: the 32 bytes of the transaction id as they
    are, then the index, least significant byte first.  Both are read back
    from the bytes. *)
Theorem Outpoint_serialize_layout (t : list Byte.byte) (i : Z)
    (o : Ch6.Outpoint)
    (Hnew : Ch6.new_Outpoint t i = Ch6.Done o)
    (Hidx : 0 ≤ i < 4294967296) :
  ∃ bs,
    Ch6.Outpoint_serialize o = Ch6.Done bs
    ∧ bs = t ++ Ch6.le_bytes 4 i
    ∧ length bs = 36%nat
    ∧ take 32 bs = t
    ∧ Ch6.le_value (drop 32 bs) = i.
Proof.
  apply new_Outpoint_Done in Hnew as [Hlen ->].
  exists (t ++ Ch6.le_bytes 4 i). split_and!.
  - rewrite Outpoint_serialize_unfold. simpl.
    rewrite bool_decide_true by done. by rewrite copy_to_txid.
  - done.
  - rewrite length_app, le_bytes_length. lia.
  - rewrite take_app_le by lia. apply take_ge. lia.
  - rewrite drop_app_ge by lia. rewrite Hlen, Nat.sub_diag. simpl drop.
    by apply (le_value_le_bytes 4).
Qed.

Lemma Outpoint_serialize_layout_witness :
  ∃ bs,
    Ch6.Outpoint_serialize
      {| Ch6.txid := Ch6.sample_txid; Ch6.index := 258 |} = Ch6.Done bs
    ∧ bs = Ch6.sample_txid ++ Ch6.le_bytes 4 258
    ∧ length bs = 36%nat
    ∧ take 32 bs = Ch6.sample_txid
    ∧ Ch6.le_value (drop 32 bs) = 258.
Proof.
  apply (Outpoint_serialize_layout Ch6.sample_txid 258).
  - reflexivity.
  - lia.
Defined.

(** X14.  The constructor refuses a transaction id that is not of 32
    bytes and accepts every integer as index; [serialize] then raises a
    RangeError, and nothing else, exactly when the index is negative or
    does not fit 32 bits. *)
Theorem Outpoint_index_range (t : list Byte.byte) (i : Z) :
  match Ch6.new_Outpoint t i with
  | Ch6.Done o =>
      length t = 32%nat
      ∧ (Ch6.Outpoint_serialize o = Ch6.Throw Ch6.RangeError
         ↔ i < 0 ∨ 4294967296 ≤ i)
      ∧ (∀ e, Ch6.Outpoint_serialize o = Ch6.Throw e → e = Ch6.RangeError)
  | Ch6.Throw e => e = Ch6.AssertionError ∧ length t ≠ 32%nat
  end.
Proof.
  unfold Ch6.new_Outpoint. case_bool_decide as Hlen; [|done].
  rewrite Outpoint_serialize_unfold. simpl.
  case_bool_decide as Hi; split_and!; try done.
  - split; [done|lia].
  - split; [lia|done].
  - by intros e [= <-].
Qed.

(** X15.  Two outpoints made by the constructor that serialize to the same
    bytes are the same outpoint. *)
Theorem Outpoint_serialize_injective (t1 t2 : list Byte.byte) (i1 i2 : Z)
    (o1 o2 : Ch6.Outpoint) (bs : list Byte.byte)
    (Hnew1 : Ch6.new_Outpoint t1 i1 = Ch6.Done o1)
    (Hnew2 : Ch6.new_Outpoint t2 i2 = Ch6.Done o2)
    (Hser1 : Ch6.Outpoint_serialize o1 = Ch6.Done bs)
    (Hser2 : Ch6.Outpoint_serialize o2 = Ch6.Done bs) :
  o1 = o2.
Proof.
  apply new_Outpoint_Done in Hnew1 as [Hlen1 ->].
  apply new_Outpoint_Done in Hnew2 as [Hlen2 ->].
  rewrite Outpoint_serialize_unfold in Hser1, Hser2.
  cbn [Ch6.txid Ch6.index] in *.
  case_bool_decide as Hi1; [|done]. case_bool_decide as Hi2; [|done].
  rewrite copy_to_txid in Hser1, Hser2 by done.
  assert (t1 ++ Ch6.le_bytes 4 i1 = t2 ++ Ch6.le_bytes 4 i2) as Heq
    by congruence.
  apply app_inj_1 in Heq as [-> Hle]; [|lia].
  f_equal.
  rewrite <- (le_value_le_bytes 4 i1), <- (le_value_le_bytes 4 i2) by done.
  by rewrite Hle.
Qed.

Lemma Outpoint_serialize_injective_witness :
  {| Ch6.txid := Ch6.sample_txid; Ch6.index := 7 |}
  = {| Ch6.txid := Ch6.sample_txid; Ch6.index := 7 |}.
Proof.
  apply (Outpoint_serialize_injective Ch6.sample_txid Ch6.sample_txid 7 7
           _ _ (Ch6.sample_txid ++ Ch6.le_bytes 4 7)); reflexivity.
Defined.

(** ** Inputs *)

Lemma outcome_bind_Done {A B : Type} (a : A) (f : A → Ch6.outcome B) :
  Ch6.Done a ≫= f = f a.
Proof. reflexivity. Qed.

Lemma outcome_bind_Throw {A B : Type} (e : Ch6.error)
    (f : A → Ch6.outcome B) :
  Ch6.Throw e ≫= f = Ch6.Throw e.
Proof. reflexivity. Qed.

(** A write over the [n] bytes [pad] that follow [pre]. *)
Lemma write_le_over (n : nat) (v : Z) (pre pad rest : list Byte.byte) :
  length pad = n →
  Ch6.write_le n v (length pre) (pre ++ pad ++ rest) =
    if bool_decide (0 ≤ v < 256 ^ Z.of_nat n)
    then Ch6.Done (pre ++ Ch6.le_bytes n v ++ rest)
    else Ch6.Throw Ch6.RangeError.
Proof.
  intros Hpad. rewrite write_le_unfold by (rewrite !length_app; lia).
  case_bool_decide; [|done]. f_equal.
  rewrite take_app_length. do 2 f_equal.
  rewrite drop_app_ge by lia.
  replace (length pre + n - length pre)%nat with (length pad) by lia.
  by rewrite drop_app_length.
Qed.

Lemma copy_to_alloc (ser : list Byte.byte) (n : nat) :
  Ch6.copy_to ser (Ch6.alloc (length ser + n)) = ser ++ Ch6.alloc n.
Proof.
  unfold Ch6.copy_to, Ch6.alloc. rewrite length_replicate.
  rewrite take_ge by lia. f_equal.
  rewrite drop_replicate. f_equal. lia.
Qed.

Lemma Input_serialize_unfold (i : Ch6.Input) :
  Ch6.Input_serialize i =
    match Ch6.outpoint i with
    | None => Ch6.Throw Ch6.TypeError_null
    | Some o =>
        if bool_decide (0 ≤ Ch6.index o < 4294967296
                        ∧ (length (Ch6.script i) ≤ 255)%nat
                        ∧ 0 ≤ Ch6.sequence i < 4294967296)
        then Ch6.Done (take 32 (Ch6.copy_to (Ch6.txid o) (Ch6.alloc 36))
                       ++ Ch6.le_bytes 4 (Ch6.index o)
                       ++ [Ch6.byte_of_Z (Z.of_nat (length (Ch6.script i)))]
                       ++ Ch6.le_bytes 4 (Ch6.sequence i))
        else Ch6.Throw Ch6.RangeError
    end.
Proof.
  unfold Ch6.Input_serialize.
  destruct (Ch6.outpoint i) as [o|]; [|done]. rewrite outcome_bind_Done.
  destruct (Ch6.Outpoint_serialize o) as [ser|e] eqn:Hser.
  - pose proof (Outpoint_serialize_length _ _ Hser) as Hlen.
    rewrite Outpoint_serialize_unfold in Hser.
    case_bool_decide as Hidx; [|done].
    assert (ser = take 32 (Ch6.copy_to (Ch6.txid o) (Ch6.alloc 36))
                  ++ Ch6.le_bytes 4 (Ch6.index o)) as Hser' by congruence.
    clear Hser. rewrite (app_assoc (take 32 _)), <- Hser'. clear Hser'.
    rewrite outcome_bind_Done.
    replace (Ch6.alloc (32 + 4 + 1 + 4))
      with (Ch6.alloc (length ser + 5)) by (by rewrite Hlen).
    rewrite copy_to_alloc.
    change (Ch6.alloc 5) with (Ch6.alloc 1 ++ Ch6.alloc 4).
    pose proof (write_le_over 1 (Z.of_nat (length (Ch6.script i))) ser
                  (Ch6.alloc 1) (Ch6.alloc 4) eq_refl) as Hw1.
    rewrite Hlen in Hw1. rewrite Hw1. clear Hw1.
    change (256 ^ Z.of_nat 1) with 256.
    case_bool_decide as Hscript.
    + rewrite outcome_bind_Done.
      change (Ch6.le_bytes 1 ?v) with [Ch6.byte_of_Z v].
      set (b := Ch6.byte_of_Z _).
      pose proof (write_le_over 4 (Ch6.sequence i) (ser ++ [b])
                    (Ch6.alloc 4) [] eq_refl) as Hw2.
      rewrite length_app, Hlen, app_nil_r, <- app_assoc in Hw2.
      change (36 + length [b])%nat with 37%nat in Hw2.
      rewrite Hw2. clear Hw2.
      change (256 ^ Z.of_nat 4) with 4294967296.
      case_bool_decide as Hseq.
      * rewrite bool_decide_true by lia.
        by rewrite app_nil_r, <- app_assoc.
      * by rewrite bool_decide_false by lia.
    + rewrite outcome_bind_Throw. by rewrite bool_decide_false by lia.
  - rewrite outcome_bind_Throw. rewrite Outpoint_serialize_unfold in Hser.
    case_bool_decide as Hidx; [done|]. injection Hser as <-.
    by rewrite bool_decide_false by lia.
Qed.

(** X16.  An input whose outpoint serializes, whose script is at most 255
    bytes long and whose sequence number fits 32 bits serializes to 41
    bytes: the 36 bytes of the outpoint, one byte that is the length of
    the script, and the sequence number, least significant byte first.
    The bytes of the script are not written, nor the value, nor the
    scriptcode. *)
Theorem Input_serialize_layout (i : Ch6.Input) (o : Ch6.Outpoint)
    (ser : list Byte.byte)
    (Hout : Ch6.outpoint i = Some o)
    (Hser : Ch6.Outpoint_serialize o = Ch6.Done ser)
    (Hscript : (length (Ch6.script i) ≤ 255)%nat)
    (Hseq : 0 ≤ Ch6.sequence i < 4294967296) :
  ∃ bs,
    Ch6.Input_serialize i = Ch6.Done bs
    ∧ bs = ser ++ [Ch6.byte_of_Z (Z.of_nat (length (Ch6.script i)))]
               ++ Ch6.le_bytes 4 (Ch6.sequence i)
    ∧ length bs = 41%nat
    ∧ Ch6.Z_of_byte <$> bs !! 36%nat
      = Some (Z.of_nat (length (Ch6.script i)))
    ∧ Ch6.le_value (drop 37 bs) = Ch6.sequence i.
Proof.
  pose proof (Outpoint_serialize_length _ _ Hser) as Hlen.
  eexists. split_and!; [|reflexivity|..].
  - rewrite Input_serialize_unfold, Hout.
    rewrite Outpoint_serialize_unfold in Hser.
    case_bool_decide as Hidx; [|done]. injection Hser as <-.
    rewrite bool_decide_true by done. by rewrite <- !app_assoc.
  - rewrite !length_app, le_bytes_length, Hlen. simpl. lia.
  - rewrite lookup_app_r by lia. rewrite Hlen, Nat.sub_diag. simpl.
    rewrite Z_of_byte_of_Z, Z.mod_small by lia. done.
  - rewrite drop_app_ge by lia. rewrite Hlen.
    change (drop (37 - 36) ([?b] ++ ?r)) with r.
    by apply (le_value_le_bytes 4).
Qed.

Lemma Input_serialize_layout_witness :
  ∃ bs,
    Ch6.Input_serialize
      {| Ch6.outpoint := Some {| Ch6.txid := Ch6.sample_txid; Ch6.index := 1 |};
         Ch6.script := [Byte.x51; Byte.x52]; Ch6.sequence := 4294967293;
         Ch6.value := 1000; Ch6.scriptcode := [Byte.xac] |} = Ch6.Done bs
    ∧ bs = (Ch6.sample_txid ++ Ch6.le_bytes 4 1)
           ++ [Ch6.byte_of_Z 2] ++ Ch6.le_bytes 4 4294967293
    ∧ length bs = 41%nat
    ∧ Ch6.Z_of_byte <$> bs !! 36%nat = Some 2
    ∧ Ch6.le_value (drop 37 bs) = 4294967293.
Proof.
  apply (Input_serialize_layout
           {| Ch6.outpoint :=
                Some {| Ch6.txid := Ch6.sample_txid; Ch6.index := 1 |};
              Ch6.script := [Byte.x51; Byte.x52];
              Ch6.sequence := 4294967293;
              Ch6.value := 1000; Ch6.scriptcode := [Byte.xac] |}
           {| Ch6.txid := Ch6.sample_txid; Ch6.index := 1 |}
           (Ch6.sample_txid ++ Ch6.le_bytes 4 1)).
  - reflexivity.
  - reflexivity.
  - simpl. lia.
  - simpl. lia.
Defined.

(** X17.  [Input.serialize] raises a TypeError exactly when the input has
    no outpoint, as an input fresh from the constructor, and a RangeError
    exactly when it has one and the index of the outpoint, the length of
    the script or the sequence number is out of range; in every other case
    it returns bytes. *)
Theorem Input_serialize_errors (i : Ch6.Input) :
  (Ch6.Input_serialize i = Ch6.Throw Ch6.TypeError_null
   ↔ Ch6.outpoint i = None)
  ∧ (Ch6.Input_serialize i = Ch6.Throw Ch6.RangeError
     ↔ ∃ o, Ch6.outpoint i = Some o
            ∧ ¬ (0 ≤ Ch6.index o < 4294967296
                 ∧ (length (Ch6.script i) ≤ 255)%nat
                 ∧ 0 ≤ Ch6.sequence i < 4294967296))
  ∧ Ch6.Input_serialize i ≠ Ch6.Throw Ch6.AssertionError
  ∧ Ch6.Input_serialize Ch6.new_Input = Ch6.Throw Ch6.TypeError_null.
Proof.
  rewrite Input_serialize_unfold.
  destruct (Ch6.outpoint i) as [o|].
  - case_bool_decide as Hr; split_and!; try done.
    + split; [done|]. intros (o' & [= <-] & Hn). done.
    + split; [|done]. intros _. by exists o.
  - split_and!; try done. split; [done|]. by intros (o & ? & _).
Qed.

(** ** Hexadecimal arguments *)

Lemma nibble_cases (d : Z) :
  0 ≤ d < 16 →
  d = 0 ∨ d = 1 ∨ d = 2 ∨ d = 3 ∨ d = 4 ∨ d = 5 ∨ d = 6 ∨ d = 7
  ∨ d = 8 ∨ d = 9 ∨ d = 10 ∨ d = 11 ∨ d = 12 ∨ d = 13 ∨ d = 14 ∨ d = 15.
Proof. lia. Qed.

Lemma hex_digit_hex_char (d : Z) :
  0 ≤ d < 16 → Ch6.hex_digit (Ch6.hex_char d) = Some d.
Proof.
  intros Hd. apply nibble_cases in Hd.
  repeat (destruct Hd as [->|Hd]; [vm_compute; reflexivity|]).
  subst. vm_compute. reflexivity.
Qed.

Lemma hex_char_not_x (d : Z) :
  0 ≤ d < 16 → Ascii.eqb (Ch6.hex_char d) Ch6.char_x = false.
Proof.
  intros Hd. apply nibble_cases in Hd.
  repeat (destruct Hd as [->|Hd]; [vm_compute; reflexivity|]).
  subst. vm_compute. reflexivity.
Qed.

Lemma byte_nibbles (b : Byte.byte) :
  0 ≤ Ch6.Z_of_byte b `div` 16 < 16 ∧ 0 ≤ Ch6.Z_of_byte b `mod` 16 < 16.
Proof.
  pose proof (Z_of_byte_range b) as Hb. split.
  - split; [apply Z.div_pos; lia|apply Z.div_lt_upper_bound; lia].
  - apply Z.mod_pos_bound. lia.
Qed.

Lemma hex_decode_encode (bs : list Byte.byte) :
  Ch6.hex_decode (Ch6.hex_encode bs) = bs.
Proof.
  induction bs as [|b r IH]; [done|].
  destruct (byte_nibbles b) as [Hhi Hlo].
  cbn [Ch6.hex_encode Ch6.hex_decode].
  rewrite !hex_digit_hex_char, IH by done. f_equal.
  rewrite <- (byte_of_Z_of_byte b) at 3. f_equal.
  pose proof (Z.div_mod (Ch6.Z_of_byte b) 16). lia.
Qed.

Lemma no_x_hex_encode (bs : list Byte.byte) :
  Ch6.no_x (Ch6.hex_encode bs) = true.
Proof.
  induction bs as [|b r IH]; [done|].
  destruct (byte_nibbles b) as [Hhi Hlo].
  cbn [Ch6.hex_encode Ch6.no_x].
  by rewrite !hex_char_not_x, IH by done.
Qed.

(** Up to the first [x] there is nothing to remove. *)
Lemma remove_0x_insert (h1 h2 : string) :
  Ch6.no_x h1 = true →
  Ch6.remove_0x (h1 +:+ "0x" +:+ h2) = h1 +:+ h2.
Proof.
  induction h1 as [|c r IH]; [done|].
  intros Hno. cbn [Ch6.no_x] in Hno.
  apply andb_true_iff in Hno as [Hc Hr]. apply negb_true_iff in Hc.
  change (String c r +:+ "0x" +:+ h2) with (String c (r +:+ "0x" +:+ h2)).
  change (String c r +:+ h2) with (String c (r +:+ h2)).
  rewrite <- (IH Hr).
  destruct r as [|c' r'].
  - simpl. destruct (Ascii.eqb_spec c Ch6.char_0) as [->|]; done.
  - cbn [Ch6.no_x] in Hr.
    apply andb_true_iff in Hr as [Hc' _]. apply negb_true_iff in Hc'.
    change (String c' r' +:+ "0x" +:+ h2)
      with (String c' (r' +:+ "0x" +:+ h2)).
    cbn [Ch6.remove_0x]. fold Ch6.remove_0x.
    by rewrite Hc', andb_false_r.
Qed.

Lemma remove_0x_no_x (s : string) : Ch6.no_x s = true → Ch6.remove_0x s = s.
Proof.
  induction s as [|c r IH]; [done|].
  intros Hno. cbn [Ch6.no_x] in Hno.
  apply andb_true_iff in Hno as [_ Hr].
  destruct r as [|c' r']; [done|].
  pose proof Hr as Hr'. cbn [Ch6.no_x] in Hr'.
  apply andb_true_iff in Hr' as [Hc' _]. apply negb_true_iff in Hc'.
  cbn [Ch6.remove_0x]. fold Ch6.remove_0x.
  rewrite Hc', andb_false_r. f_equal. by apply IH.
Qed.

Lemma from_output_hex (bs sc : list Byte.byte) (vout v : Z) :
  Ch6.from_output (Ch6.hex_encode bs) vout v (Ch6.hex_encode sc) =
    if bool_decide (length bs = 32%nat)
    then Ch6.Done
           {| Ch6.outpoint :=
                Some {| Ch6.txid := reverse bs; Ch6.index := vout |};
              Ch6.script := []; Ch6.sequence := 4294967295;
              Ch6.value := v; Ch6.scriptcode := sc |}
    else Ch6.Throw Ch6.AssertionError.
Proof.
  unfold Ch6.from_output, Ch6.new_Outpoint.
  rewrite !remove_0x_no_x, !hex_decode_encode by apply no_x_hex_encode.
  rewrite length_reverse. by case_bool_decide.
Qed.

(** X18.  [from_output] turns the hexadecimal digits of a transaction id
    of 32 bytes into an input whose outpoint holds these bytes in reverse
    order, with the given index and value, the bytes of the scriptcode,
    an empty script and the sequence number [0xffffffff].  Digits of any
    other number of bytes fail the assertion of the constructor of
    [Outpoint]. *)
Theorem from_output_decodes (bs sc : list Byte.byte) (vout v : Z) :
  Ch6.from_output (Ch6.hex_encode bs) vout v (Ch6.hex_encode sc) =
    if bool_decide (length bs = 32%nat)
    then Ch6.Done
           {| Ch6.outpoint :=
                Some {| Ch6.txid := reverse bs; Ch6.index := vout |};
              Ch6.script := []; Ch6.sequence := 4294967295;
              Ch6.value := v; Ch6.scriptcode := sc |}
    else Ch6.Throw Ch6.AssertionError.
Proof. apply from_output_hex. Qed.

(** X19.  The marker [0x] is removed where it first occurs, not only in
    front: in either hexadecimal argument, digits with a [0x] among them
    are read as the same digits without it. *)
Theorem from_output_marker (t1 t2 s1 s2 : string) (vout v : Z)
    (Ht1 : Ch6.no_x t1 = true) (Ht2 : Ch6.no_x t2 = true)
    (Hs1 : Ch6.no_x s1 = true) (Hs2 : Ch6.no_x s2 = true) :
  Ch6.from_output (t1 +:+ "0x" +:+ t2) vout v (s1 +:+ "0x" +:+ s2)
  = Ch6.from_output (t1 +:+ t2) vout v (s1 +:+ s2).
Proof.
  assert (∀ a b, Ch6.no_x a = true → Ch6.no_x b = true →
                 Ch6.no_x (a +:+ b) = true) as Happ.
  { induction a as [|c r IH]; intros b Ha Hb; [done|].
    cbn [Ch6.no_x] in Ha. apply andb_true_iff in Ha as [Hc Hr].
    change (String c r +:+ b) with (String c (r +:+ b)).
    cbn [Ch6.no_x]. by rewrite Hc, IH. }
  unfold Ch6.from_output.
  rewrite !remove_0x_insert by done.
  by rewrite !remove_0x_no_x by (by apply Happ).
Qed.

Lemma from_output_marker_witness :
  Ch6.from_output ("" +:+ "0x" +:+ Ch6.hex_encode Ch6.sample_txid) 1 1000
    ("76" +:+ "0x" +:+ "a9")
  = Ch6.from_output ("" +:+ Ch6.hex_encode Ch6.sample_txid) 1 1000
      ("76" +:+ "a9").
Proof.
  apply (from_output_marker "" (Ch6.hex_encode Ch6.sample_txid) "76" "a9");
    reflexivity.
Defined.

(** X20.  An input made by [from_output] from the digits of a transaction
    id of 32 bytes and an index of 32 bits serializes to the 41 bytes of
    an unsigned input: the bytes of the id in reverse order, the index
    least significant byte first, a zero for the length of the script, and
    four bytes [ff]. *)
Theorem from_output_serialize (bs sc : list Byte.byte) (vout v : Z)
    (Hlen : length bs = 32%nat) (Hvout : 0 ≤ vout < 4294967296) :
  Ch6.from_output (Ch6.hex_encode bs) vout v (Ch6.hex_encode sc)
    ≫= Ch6.Input_serialize
  = Ch6.Done (reverse bs ++ Ch6.le_bytes 4 vout
              ++ [Byte.x00] ++ [Byte.xff; Byte.xff; Byte.xff; Byte.xff])
  ∧ length (reverse bs ++ Ch6.le_bytes 4 vout
            ++ [Byte.x00] ++ [Byte.xff; Byte.xff; Byte.xff; Byte.xff])
    = 41%nat.
Proof.
  split.
  - rewrite from_output_hex, bool_decide_true by done.
    rewrite outcome_bind_Done, Input_serialize_unfold.
    cbn [Ch6.outpoint Ch6.index Ch6.txid Ch6.script Ch6.sequence].
    rewrite bool_decide_true by (simpl; lia).
    rewrite copy_to_txid by (by rewrite length_reverse). done.
  - rewrite !length_app, length_reverse, le_bytes_length, Hlen. done.
Qed.

Lemma from_output_serialize_witness :
  Ch6.from_output (Ch6.hex_encode Ch6.sample_txid) 1 650000000
    (Ch6.hex_encode [Byte.x76; Byte.xa9])
    ≫= Ch6.Input_serialize
  = Ch6.Done (reverse Ch6.sample_txid ++ Ch6.le_bytes 4 1
              ++ [Byte.x00] ++ [Byte.xff; Byte.xff; Byte.xff; Byte.xff])
  ∧ length (reverse Ch6.sample_txid ++ Ch6.le_bytes 4 1
            ++ [Byte.x00] ++ [Byte.xff; Byte.xff; Byte.xff; Byte.xff])
    = 41%nat.
Proof.
  apply (from_output_serialize Ch6.sample_txid [Byte.x76; Byte.xa9] 1
           650000000).
  - reflexivity.
  - lia.
Defined.

Example from_output_serialize_hex :
  (Ch6.from_output
     "8a081631c920636ed71f9de5ca24cb9da316c2653f4dc87c9a1616451c53748e"
     1 650000000 "1976a914b234aee5ee74d7615c075b4fe81fd8ace54137f288ac"
     ≫= Ch6.Input_serialize)
    ≫= (fun bs => Ch6.Done (Ch6.hex_encode bs))
  = Ch6.Done
      "8e74531c4516169a7cc84d3f65c216a39dcb24cae59d1fd76e6320c93116088a0100000000ffffffff".
Proof. vm_compute. reflexivity. Qed.

(** ** The fee of a transaction *)

